(** * The real-time block of [src/index.js]: rooms, listeners and fan-out

    The block registers five listeners on every accepted socket ([setup],
    [join chat], [typing], [stop typing], [new message]) and hands one more
    callback to [socket.off].  The development embeds these callbacks as
    functions over an explicit room registry and an output trace, and proves
    the delivery properties of the specification about them.

    Names.  The specification writes [userId] for the field the code reads
    as [_id], and [messageReceived] for the event the code emits as
    ['message recieved'].  The definitions below use the names of the code. *)

From stdpp Require Import gmap strings list pretty.

Open Scope Z_scope.

#[local] Set Warnings "-clear-no-such-hyp".

(** ** Payload values *)

(** Scalars of a decoded payload.  [PNum n] is a number whose value is the
    integer [n]; numbers with a fractional part are outside the model. *)
Inductive prim :=
  | PUndefined
  | PNull
  | PBool (b : bool)
  | PNum (n : Z)
  | PStr (s : string).

(** A decoded payload is a tree: every array and object in it is a node of
    its own, so two compound values met at different places of a payload are
    never the same reference. *)
#[local] Unset Elimination Schemes.
Inductive value :=
  | VPrim (p : prim)
  | VArr (elems : list value)
  | VObj (fields : gmap string value).
#[local] Set Elimination Schemes.

Abbreviation undefined := (VPrim PUndefined).
Abbreviation VStr s := (VPrim (PStr s)).
Abbreviation VNum n := (VPrim (PNum n)).

#[global] Instance prim_eq_dec : EqDecision prim.
Proof. solve_decision. Defined.

Definition prim_code (p : prim) : unit + unit + bool + Z + string :=
  match p with
  | PUndefined => inl (inl (inl (inl ())))
  | PNull => inl (inl (inl (inr ())))
  | PBool b => inl (inl (inr b))
  | PNum n => inl (inr n)
  | PStr s => inr s
  end.

Definition prim_decode (x : unit + unit + bool + Z + string) : prim :=
  match x with
  | inl (inl (inl (inl _))) => PUndefined
  | inl (inl (inl (inr _))) => PNull
  | inl (inl (inr b)) => PBool b
  | inl (inr n) => PNum n
  | inr s => PStr s
  end.

#[global] Instance prim_countable : Countable prim.
Proof.
  refine (inj_countable' prim_code prim_decode _).
  intros p; destruct p; reflexivity.
Defined.

(** ** Connections, rooms, outputs *)

(** A connection is named by the identifier the transport gave it. *)
Definition conn := nat.

(** Modelled from the spec: the Room Registry of section 4.1 is the room
    table of the socket.io server, not part of [src/].  It maps a room key
    to the set of connections joined to it.  The keys are the scalars the
    handlers pass on ([userData._id], [room], [user._id]); the spec only
    speaks of strings. *)
Abbreviation rooms := (gmap prim (gset conn)).

(** Modelled from the spec: [members(roomId)], the empty set for an unknown
    room. *)
Definition members (reg : rooms) (r : prim) : gset conn :=
  default ∅ (reg !! r).

(** Modelled from the spec: [join(roomId, connection)], creating the room
    when absent. *)
Definition join (r : prim) (c : conn) (reg : rooms) : rooms :=
  <[r := {[c]} ∪ members reg r]> reg.

(** Modelled from the spec: [leave(roomId, connection)], deleting the room
    once its member set is empty. *)
Definition leave (r : prim) (c : conn) (reg : rooms) : rooms :=
  let m := members reg r ∖ {[c]} in
  if decide (m = ∅) then delete r reg else <[r := m]> reg.

(** The six function literals inside the connection callback, by the place
    they are written at: the five handed to [socket.on] and the one handed
    to [socket.off].  Two literals are never the same function. *)
Inductive listener :=
  | LSetup
  | LJoinChat
  | LTyping
  | LStopTyping
  | LNewMessage
  | LTeardown.

#[global] Instance listener_eq_dec : EqDecision listener.
Proof. solve_decision. Defined.

(** What a run leaves behind, in order: events pushed to a connection, lines
    written to the console, and a mark for every listener the transport
    calls. *)
Inductive output :=
  | Emit (to : conn) (event : string) (payload : option value)
  | Log (line : string)
  | Invoke (socket : conn) (l : listener).

Inductive error := TypeError.

(** The result of evaluating a piece of a callback: a value, an exception
    that leaves the callback, or [Beyond] when the run needs a part of the
    language or of socket.io that this development does not model (a
    compound value used as a room key or coerced by [==], a numeric string
    that is not a plain decimal). *)
Inductive outcome (A : Type) :=
  | Done (a : A)
  | Raised (e : error)
  | Beyond.
Arguments Done {A} a.
Arguments Raised {A} e.
Arguments Beyond {A}.

(** A callback reads and updates the registry and appends to the trace. *)
Definition action (A : Type) : Type := rooms → rooms * list output * outcome A.

Definition ret {A} (a : A) : action A := λ reg, (reg, [], Done a).

Definition bind {A B} (m : action A) (k : A → action B) : action B := λ reg,
  match m reg with
  | (reg1, out1, Done a) =>
      let '(reg2, out2, r) := k a reg1 in (reg2, out1 ++ out2, r)
  | (reg1, out1, Raised e) => (reg1, out1, Raised e)
  | (reg1, out1, Beyond) => (reg1, out1, Beyond)
  end.

Definition lift {A} (o : outcome A) : action A := λ reg, (reg, [], o).

Notation "x ← m ; k" := (bind m (λ x, k))
  (at level 20, m at level 100, k at level 200, only parsing, right associativity).
Notation "m ;; k" := (bind m (λ _, k))
  (at level 100, k at level 200, only parsing, right associativity).

Definition registry_of {A} (r : rooms * list output * outcome A) : rooms := r.1.1.
Definition trace_of {A} (r : rooms * list output * outcome A) : list output := r.1.2.
Definition result_of {A} (r : rooms * list output * outcome A) : outcome A := r.2.

(** ** The language primitives the callbacks use *)

(** [v.name] for the names the source reads ([chat], [users], [sender],
    [_id]): reading a property of [undefined] or [null] throws a TypeError;
    a scalar or an array has no property of these names; an object yields
    its own property, or [undefined]. *)
Definition get (v : value) (name : string) : outcome value :=
  match v with
  | VPrim PUndefined | VPrim PNull => Raised TypeError
  | VPrim _ | VArr _ => Done undefined
  | VObj fields => Done (default undefined (fields !! name))
  end.

(** What [!v] negates: [undefined], [null], [false], [0] and the empty string
    are falsy, everything else (every array and object too) is truthy. *)
Definition truthy (v : value) : bool :=
  match v with
  | VPrim PUndefined | VPrim PNull => false
  | VPrim (PBool b) => b
  | VPrim (PNum n) => negb (n =? 0)
  | VPrim (PStr s) => negb (String.eqb s "")
  | VArr _ | VObj _ => true
  end.

Definition digit_of (a : Ascii.ascii) : option Z :=
  let n := Z.of_nat (Ascii.nat_of_ascii a) in
  if (48 <=? n) && (n <=? 57) then Some (n - 48) else None.

Fixpoint digits_value (s : string) (acc : Z) : option Z :=
  match s with
  | EmptyString => Some acc
  | String a s' =>
      match digit_of a with
      | Some d => digits_value s' (10 * acc + d)
      | None => None
      end
  end.

(** The number a string converts to, for the strings this development
    covers: a non-empty run of decimal digits denoting at most 2^53 (such a
    number is read without rounding).  Other strings give [None]. *)
Definition string_to_number (s : string) : option Z :=
  match s with
  | EmptyString => None
  | _ =>
      match digits_value s 0 with
      | Some n => if n <=? 2 ^ 53 then Some n else None
      | None => None
      end
  end.

Definition to_number (p : prim) : option Z :=
  match p with
  | PNum n => Some n
  | PBool b => Some (if b then 1 else 0)
  | PStr s => string_to_number s
  | PUndefined | PNull => None
  end.

(** [p == q] on scalars: [undefined] and [null] equal each other and nothing
    else; two strings compare as strings; every other pair compares the
    numbers the operands convert to. *)
Definition loose_eq_prim (p q : prim) : option bool :=
  match p, q with
  | (PUndefined | PNull), (PUndefined | PNull) => Some true
  | (PUndefined | PNull), _ | _, (PUndefined | PNull) => Some false
  | PStr a, PStr b => Some (String.eqb a b)
  | _, _ =>
      match to_number p, to_number q with
      | Some n, Some m => Some (n =? m)
      | _, _ => None
      end
  end.

(** [x == y].  Two compound values of a payload are distinct references, and
    a compound value never equals [undefined] or [null]; a compound value
    against another scalar is coerced first, which is not modelled. *)
Definition nullish (p : prim) : bool :=
  match p with
  | PUndefined | PNull => true
  | _ => false
  end.

Definition loose_eq (x y : value) : outcome bool :=
  match x, y with
  | VPrim p, VPrim q =>
      match loose_eq_prim p q with Some b => Done b | None => Beyond end
  | VPrim p, _ | _, VPrim p => if nullish p then Done false else Beyond
  | _, _ => Done false
  end.

(** [x === y] on scalars, for comparison with [==]. *)
Definition strict_eq_prim (p q : prim) : bool := bool_decide (p = q).

(** The text ['...' + p] appends for a scalar. *)
Definition to_display (p : prim) : option string :=
  match p with
  | PUndefined => Some "undefined"
  | PNull => Some "null"
  | PBool true => Some "true"
  | PBool false => Some "false"
  | PNum n => if Z.abs n <? 10 ^ 21 then Some (pretty n) else None
  | PStr s => Some s
  end.

(** ** The socket.io calls of the source *)

Definition as_room (v : value) : outcome prim :=
  match v with
  | VPrim p => Done p
  | VArr _ | VObj _ => Beyond
  end.

Definition console_log (line : string) : action unit :=
  λ reg, (reg, [Log line], Done ()).

(** [socket.join(v)]. *)
Definition socket_join (socket : conn) (v : value) : action unit :=
  r ← lift (as_room v);
  λ reg, (join r socket reg, [], Done ()).

(** [socket.leave(v)]. *)
Definition socket_leave (socket : conn) (v : value) : action unit :=
  r ← lift (as_room v);
  λ reg, (leave r socket reg, [], Done ()).

(** [socket.emit(event)]: to this socket alone. *)
Definition socket_emit (socket : conn) (event : string) : action unit :=
  λ reg, (reg, [Emit socket event None], Done ()).

(** Modelled from the spec: [socket.in(v).emit(event, payload)] reaches the
    members of the room other than the emitting socket (sections 4.3 and 6:
    broadcast to the room, excluding the sender). *)
Definition socket_in_emit (socket : conn) (v : value) (event : string)
    (payload : option value) : action unit :=
  r ← lift (as_room v);
  λ reg, (reg,
          (λ c, Emit c event payload) <$> elements (members reg r ∖ {[socket]}),
          Done ()).

Fixpoint each {A} (f : A → action unit) (l : list A) : action unit :=
  match l with
  | [] => ret ()
  | x :: l' => f x;; each f l'
  end.

(** [v.forEach(f)]: an array runs [f] on its elements in order; any other
    value that got past the truthiness test has no callable [forEach], and
    the call throws a TypeError. *)
Definition for_each (v : value) (f : value → action unit) : action unit :=
  match v with
  | VArr elems => each f elems
  | _ => lift (Raised TypeError)
  end.

(** ['...' + v] as the argument of [console.log]. *)
Definition str_plus (s : string) (v : value) : outcome string :=
  match v with
  | VPrim p =>
      match to_display p with Some t => Done (s +:+ t) | None => Beyond end
  | VArr _ | VObj _ => Beyond
  end.

(** ** The callbacks of [io.on('connection', ...)] *)

(** [socket.on('setup', (userData) => ...)] *)
Definition on_setup (socket : conn) (userData : value) : action unit :=
  id ← lift (get userData "_id");
  socket_join socket id;;
  socket_emit socket "connected".

(** [socket.on('join chat', (room) => ...)] *)
Definition on_join_chat (socket : conn) (room : value) : action unit :=
  socket_join socket room;;
  line ← lift (str_plus "User Joined Room: " room);
  console_log line.

(** [socket.on('typing', (room) => socket.in(room).emit('typing'))] *)
Definition on_typing (socket : conn) (room : value) : action unit :=
  socket_in_emit socket room "typing" None.

(** [socket.on('stop typing', (room) => socket.in(room).emit('stop typing'))] *)
Definition on_stop_typing (socket : conn) (room : value) : action unit :=
  socket_in_emit socket room "stop typing" None.

(** The callback of [chat.users.forEach]. *)
Definition notify (socket : conn) (newMessageRecieved user : value) : action unit :=
  uid ← lift (get user "_id");
  sender ← lift (get newMessageRecieved "sender");
  sid ← lift (get sender "_id");
  same ← lift (loose_eq uid sid);
  if same : bool then ret ()
  else
    room ← lift (get user "_id");
    socket_in_emit socket room "message recieved" (Some newMessageRecieved).

(** [socket.on('new message', (newMessageRecieved) => ...)] *)
Definition on_new_message (socket : conn) (newMessageRecieved : value) : action unit :=
  chat ← lift (get newMessageRecieved "chat");
  users ← lift (get chat "users");
  if negb (truthy users) then console_log "chat.users not defined"
  else for_each users (notify socket newMessageRecieved).

(** The callback handed to [socket.off('setup', ...)]. *)
Definition teardown (socket : conn) (userData : value) : action unit :=
  console_log "USER DISCONNECTED";;
  id ← lift (get userData "_id");
  socket_leave socket id.

Definition run_listener (l : listener) : conn → value → action unit :=
  match l with
  | LSetup => on_setup
  | LJoinChat => on_join_chat
  | LTyping => on_typing
  | LStopTyping => on_stop_typing
  | LNewMessage => on_new_message
  | LTeardown => teardown
  end.

(** ** The listener table of a socket *)

Abbreviation table := (list (string * listener)).

(** [socket.on(event, l)] appends a listener. *)
Definition socket_on (event : string) (l : listener) (t : table) : table :=
  t ++ [(event, l)].

Fixpoint remove_first (x : string * listener) (t : table) : table :=
  match t with
  | [] => []
  | y :: t' => if decide (x = y) then t' else y :: remove_first x t'
  end.

(** [socket.off(event, l)] removes the latest registration of that very
    function for that event, and nothing when there is none. *)
Definition socket_off (event : string) (l : listener) (t : table) : table :=
  reverse (remove_first (event, l) (reverse t)).

(** The body of the connection callback: one console line, then the
    registrations in the order of the source. *)
Definition on_connection : list output * table :=
  ([Log "Connected to socket.io"],
   socket_off "setup" LTeardown
     (socket_on "new message" LNewMessage
        (socket_on "stop typing" LStopTyping
           (socket_on "typing" LTyping
              (socket_on "join chat" LJoinChat
                 (socket_on "setup" LSetup [])))))).

Definition listeners : table := on_connection.2.

Definition listeners_for (event : string) (t : table) : list listener :=
  (filter (λ e, e.1 = event) t).*2.

(** ** What reaches a socket *)

Definition invoke (socket : conn) (payload : value) (l : listener) : action unit :=
  (λ reg, (reg, [Invoke socket l], Done ()));;
  run_listener l socket payload.

(** The transport hands an event of a socket to the listeners registered for
    its name, in order of registration; an exception ends the delivery. *)
Definition deliver (socket : conn) (event : string) (payload : value) : action unit :=
  each (invoke socket payload) (listeners_for event listeners).

(** What the transport tells the code: an event a client sent, or the close
    of a connection, which socket.io announces to the socket's listeners as
    [disconnecting] and then [disconnect], with the reason. *)
Inductive inbound :=
  | Message (socket : conn) (event : string) (payload : value)
  | Close (socket : conn) (reason : string).

(** What the callbacks of the repository do with one inbound item.  At a
    close this is the run of the listeners registered for it, and no more:
    the room cleanup socket.io performs itself at a close is part of
    [serve] below, not of [step]. *)
Definition step (i : inbound) : action unit :=
  match i with
  | Message socket event payload => deliver socket event payload
  | Close socket reason =>
      deliver socket "disconnecting" (VStr reason);;
      deliver socket "disconnect" (VStr reason)
  end.

(** Inbound items are handled one after the other; the run ends at the first
    callback that throws or leaves the model. *)
Definition run (l : list inbound) : action unit := each step l.

(** Modelled from the spec: [leaveAll(connection)], removing the connection
    from every room and dropping the rooms left empty. *)
Definition leaveAll (c : conn) (reg : rooms) : rooms :=
  filter (λ kv, kv.2 ≠ ∅) ((λ m : gset conn, m ∖ {[c]}) <$> reg).

(** Modelled from the spec: the close of a connection as the running program
    handles it (sections 4.1, 4.2 and 4.4: [leaveAll] runs at every
    disconnect, set up or not).  The source leaves this to socket.io, which
    announces [disconnecting] to the socket's listeners, takes the socket
    out of every room, and announces [disconnect]. *)
Definition transport_close (socket : conn) (reason : string) : action unit :=
  deliver socket "disconnecting" (VStr reason);;
  (λ reg, (leaveAll socket reg, [], Done ()));;
  deliver socket "disconnect" (VStr reason).

(** One inbound item in the running program: a client event goes to the
    callbacks as in [step]; a close is the transport's. *)
Definition serve (i : inbound) : action unit :=
  match i with
  | Message socket event payload => deliver socket event payload
  | Close socket reason => transport_close socket reason
  end.

Definition serve_all (l : list inbound) : action unit := each serve l.

(** ** Payloads of the scenarios *)

Definition descriptor (uid : string) : value := VObj {[ "_id" := VStr uid ]}.

(** [{ chat: { users: [...] }, sender: ... }] *)
Definition message (users : list value) (sender : value) : value :=
  VObj (<["chat" := VObj {[ "users" := VArr users ]}]> {[ "sender" := sender ]}).

(** The spec's reading of a payload: the [_id] of a descriptor when it is a
    string, and the recipients and sender of a message whose descriptors all
    carry one. *)
Definition user_id (v : value) : option string :=
  match v with
  | VObj fields =>
      match fields !! "_id" with Some (VStr uid) => Some uid | _ => None end
  | _ => None
  end.

Definition well_formed (msg : value) : option (list string * string) :=
  match msg with
  | VObj fields =>
      match fields !! "chat", fields !! "sender" with
      | Some (VObj chat), Some sender =>
          match chat !! "users" with
          | Some (VArr users) =>
              match mapM user_id users, user_id sender with
              | Some uids, Some sid => Some (uids, sid)
              | _, _ => None
              end
          | _ => None
          end
      | _, _ => None
      end
  | _ => None
  end.

(** The keys of the [setup] and [join chat] events a connection sent. *)
Definition setup_key (c : conn) (i : inbound) : option prim :=
  match i with
  | Message c' event userData =>
      if decide (c' = c ∧ event = "setup") then
        match get userData "_id" with
        | Done (VPrim p) => Some p
        | _ => None
        end
      else None
  | Close _ _ => None
  end.

Definition join_key (c : conn) (i : inbound) : option prim :=
  match i with
  | Message c' event room =>
      if decide (c' = c ∧ event = "join chat") then
        match as_room room with
        | Done p => Some p
        | _ => None
        end
      else None
  | Close _ _ => None
  end.

Definition setup_keys (c : conn) (l : list inbound) : list prim :=
  omap (setup_key c) l.

Definition join_keys (c : conn) (l : list inbound) : list prim :=
  omap (join_key c) l.

(** ** Notions the properties are stated with *)

(** [keeps P m]: running [m] never writes an [Invoke] mark rejected by [P]
    and never takes a connection out of a room. *)
Definition keeps {A} (P : listener → Prop) (m : action A) : Prop :=
  ∀ reg,
    (∀ c l, Invoke c l ∈ trace_of (m reg) → P l) ∧
    (∀ c r, c ∈ members reg r → c ∈ members (registry_of (m reg)) r).

(** [marks P m]: every [Invoke] mark a run of [m] writes satisfies [P]. *)
Definition marks {A} (P : listener → Prop) (m : action A) : Prop :=
  ∀ reg c l, Invoke c l ∈ trace_of (m reg) → P l.

(** [newMessageRecieved.chat.users], as the callback reads it. *)
Definition chat_users (newMessageRecieved : value) : outcome value :=
  match get newMessageRecieved "chat" with
  | Done chat => get chat "users"
  | Raised e => Raised e
  | Beyond => Beyond
  end.

(** [frozen m]: running [m] leaves the registry as it was. *)
Definition frozen {A} (m : action A) : Prop :=
  ∀ reg, registry_of (m reg) = reg.

(** The pushes one descriptor causes. *)
Definition pushes (socket : conn) (msg : value) (reg : rooms) (r : prim) : list output :=
  (λ c, Emit c "message recieved" (Some msg)) <$> elements (members reg r ∖ {[socket]}).

(** The scenario of the spec: two users set up, join "conv1", then the
    first types and sends a message to both. *)
Definition scenario (c1 c2 : conn) : list inbound :=
  [ Message c1 "setup" (descriptor "u1");
    Message c2 "setup" (descriptor "u2");
    Message c1 "join chat" (VStr "conv1");
    Message c2 "join chat" (VStr "conv1");
    Message c1 "typing" (VStr "conv1");
    Message c1 "new message"
      (message [descriptor "u1"; descriptor "u2"] (descriptor "u1")) ].

(** The personal rooms of a connection after a run: the rooms keyed by the
    [_id] of a [setup] event it sent, of which it is a member. *)
Definition personal_room (c : conn) (l : list inbound) (reg : rooms) (r : prim) : Prop :=
  r ∈ setup_keys c l ∧ c ∈ members (registry_of (run l reg)) r.

(** ** The conversation listing controller *)

(** The second module of the source, [export const get = async (request,
    response) => ...]: it completes the query of the request, derives two
    filters from the [keyword] parameter and hands both to
    [ConversationModel.paginate].  The embedding follows the function up to
    that call; the database query and the response are not modelled. *)
Module Conversations.

(** A string, as a sequence of UTF-16 code units. *)
Abbreviation text := (list N).

(** The code units of a literal of the source (ASCII). *)
Definition units (s : string) : text :=
  (λ a, N.of_nat (Ascii.nat_of_ascii a)) <$> String.list_ascii_of_string s.

(** A parsed query parameter: a string, or the arrays and nested objects
    the query parser builds from bracketed names and repeated keys. *)
#[local] Unset Elimination Schemes.
Inductive param :=
  | Text (s : text)
  | Items (items : list param)
  | Fields (fields : list (string * param)).
#[local] Set Elimination Schemes.

(** What [!x] negates for a parameter read off the query: a missing
    parameter and the empty string are falsy. *)
Definition present (x : option param) : bool :=
  match x with
  | None => false
  | Some (Text s) => match s with [] => false | _ => true end
  | Some (Items _) | Some (Fields _) => true
  end.

(** The code units [trim] strips: the white space and line terminators of
    the language. *)
Definition spaces : list N :=
  [0x9; 0xA; 0xB; 0xC; 0xD; 0x20; 0xA0; 0x1680;
   0x2000; 0x2001; 0x2002; 0x2003; 0x2004; 0x2005; 0x2006; 0x2007;
   0x2008; 0x2009; 0x200A; 0x2028; 0x2029; 0x202F; 0x205F; 0x3000; 0xFEFF]%N.

Definition is_space (u : N) : bool := bool_decide (u ∈ spaces).

Fixpoint trim_start (s : text) : text :=
  match s with
  | [] => []
  | u :: s' => if is_space u then trim_start s' else s
  end.

Definition trim_end (s : text) : text := reverse (trim_start (reverse s)).

(** [s.trim()] *)
Definition trim (s : text) : text := trim_end (trim_start s).

(** A [where] option: the empty object, or one column matched with
    [Op.like] against a pattern. *)
Inductive where_clause :=
  | Unfiltered
  | Like (column : string) (pattern : text).

Inductive model := UserModel | MessageModel.

(** One entry of the [include] option. *)
Record include := {
  inc_model : model;
  inc_as : string;
  inc_where : where_clause;
  inc_required : bool;
  inc_attributes : list string
}.

(** The arguments of [ConversationModel.paginate]: the request, of which
    the query is the part the controller touches, and the options. *)
Record paginate_call := {
  call_query : gmap string param;
  call_include : list include
}.

Definition includes (usersFilter messagesFilter : where_clause) : list include :=
  [ {| inc_model := UserModel; inc_as := "user"; inc_where := usersFilter;
       inc_required := true; inc_attributes := ["id"; "full_name"; "status"] |};
    {| inc_model := MessageModel; inc_as := "messages"; inc_where := messagesFilter;
       inc_required := false; inc_attributes := ["id"; "content"] |} ].

(** [`%${keyword}%`] *)
Definition like_pattern (keyword : text) : text := units "%" ++ keyword ++ units "%".

(** [keyword?.trim()]: [undefined] for a missing parameter, the trimmed
    string for a string; an array or a nested object has no callable [trim]
    and the call throws a TypeError. *)
Definition trim_keyword (keyword : option param) : outcome (option text) :=
  match keyword with
  | None => Done None
  | Some (Text s) => Done (Some (trim s))
  | Some (Items _) | Some (Fields _) => Raised TypeError
  end.

(** The controller, up to the call of [ConversationModel.paginate]. *)
Definition get (query : gmap string param) : outcome paginate_call :=
  let keyword := query !! "keyword" in
  let orderBy := query !! "orderBy" in
  let order := query !! "order" in
  let query := if present order then query else <["order" := Text (units "ASC")]> query in
  let query := if present orderBy then query else <["orderBy" := Text (units "id")]> query in
  match trim_keyword keyword with
  | Done keyword =>
      if present (Text <$> keyword) then
        let keyword := default [] keyword in
        Done {| call_query := query;
                call_include :=
                  includes (Like "full_name" (like_pattern keyword))
                           (Like "content" (like_pattern keyword)) |}
      else
        Done {| call_query := query; call_include := includes Unfiltered Unfiltered |}
  | Raised e => Raised e
  | Beyond => Beyond
  end.

(** A string of white space only. *)
Definition blank (s : text) : Prop := Forall (λ u, is_space u = true) s.

End Conversations.

(** ** Observations on runs *)

(** The connection an inbound item belongs to. *)
Definition sent_by (i : inbound) : conn :=
  match i with
  | Message socket _ _ => socket
  | Close socket _ => socket
  end.

(** The connections a trace pushes [event] to, one entry per push. *)
Definition recipients_of (event : string) (t : list output) : list conn :=
  omap (λ o, match o with
             | Emit c ev _ => if decide (ev = event) then Some c else None
             | _ => None
             end) t.

(** * Properties *)

(** ** The definitions at work *)

Example listeners_after_connection :
  listeners =
  [("setup", LSetup); ("join chat", LJoinChat); ("typing", LTyping);
   ("stop typing", LStopTyping); ("new message", LNewMessage)].
Proof. reflexivity. Qed.

Example loose_eq_number_string :
  loose_eq (VNum 5) (VStr "5") = Done true ∧
  strict_eq_prim (PNum 5) (PStr "5") = false ∧
  loose_eq (VStr "05") (VStr "5") = Done false ∧
  loose_eq undefined (VPrim PNull) = Done true ∧
  loose_eq (VPrim PNull) (VNum 0) = Done false ∧
  loose_eq (VPrim (PBool true)) (VStr "1") = Done true.
Proof. vm_compute. done. Qed.

Example setup_without_payload_throws :
  step (Message 1%nat "setup" undefined) ∅ = (∅, [Invoke 1%nat LSetup], Raised TypeError).
Proof. reflexivity. Qed.

Example new_message_falsy_users :
  trace_of (step (Message 1%nat "new message"
                    (VObj {[ "chat" := VObj {[ "users" := VNum 0 ]} ]})) ∅)
  = [Invoke 1%nat LNewMessage; Log "chat.users not defined"].
Proof. reflexivity. Qed.

Example new_message_number_against_string :
  let msg := message [VObj {[ "_id" := VNum 5 ]}; descriptor "6"] (descriptor "5") in
  let reg := join (PStr "6") 3%nat (join (PNum 5) 2%nat ∅) in
  trace_of (step (Message 1%nat "new message" msg) reg)
  = [Invoke 1%nat LNewMessage; Emit 3%nat "message recieved" (Some msg)].
Proof. vm_compute. reflexivity. Qed.

Example teardown_would_leave :
  registry_of (teardown 1%nat (descriptor "u1") (join (PStr "u1") 1%nat ∅)) = ∅.
Proof. vm_compute. reflexivity. Qed.

Example unknown_event_ignored :
  step (Message 1%nat "leave chat" (VStr "conv1")) (join (PStr "conv1") 1%nat ∅)
  = (join (PStr "conv1") 1%nat ∅, [], Done ()).
Proof. reflexivity. Qed.

(** ** The registry *)

Lemma members_join r c reg r' :
  members (join r c reg) r' =
  if decide (r = r') then {[c]} ∪ members reg r else members reg r'.
Proof.
  unfold join, members at 1. rewrite lookup_insert.
  destruct (decide (r = r')); reflexivity.
Qed.

Lemma elem_of_members_join r c reg r' c' :
  c' ∈ members (join r c reg) r' ↔ (r = r' ∧ c' = c) ∨ c' ∈ members reg r'.
Proof.
  rewrite members_join. destruct (decide (r = r')) as [->|]; set_solver.
Qed.

Lemma join_idemp r c reg : join r c (join r c reg) = join r c reg.
Proof.
  unfold join at 1. rewrite members_join, decide_True by done.
  unfold join. rewrite insert_insert_eq. f_equal. set_solver.
Qed.

Lemma members_leave r c reg r' :
  members (leave r c reg) r' =
  if decide (r = r') then members reg r ∖ {[c]} else members reg r'.
Proof.
  unfold leave. destruct (decide (members reg r ∖ {[c]} = ∅)) as [He|He].
  - unfold members at 1. rewrite lookup_delete.
    destruct (decide (r = r')); simpl; [by rewrite He | reflexivity].
  - unfold members at 1. rewrite lookup_insert.
    destruct (decide (r = r')); reflexivity.
Qed.

Lemma members_leaveAll c reg r : members (leaveAll c reg) r = members reg r ∖ {[c]}.
Proof.
  unfold leaveAll, members.
  destruct (filter _ _ !! r) as [m|] eqn:Hm.
  - apply map_lookup_filter_Some in Hm as [Hm _].
    rewrite lookup_fmap in Hm. destruct (reg !! r); simplify_eq/=; done.
  - apply map_lookup_filter_None in Hm as [Hm|Hm].
    + rewrite lookup_fmap in Hm. destruct (reg !! r); simplify_eq/=. set_solver.
    + rewrite lookup_fmap in Hm. destruct (reg !! r) as [m|]; simpl in *; [|set_solver].
      specialize (Hm _ eq_refl). simpl in Hm.
      destruct (decide (m ∖ {[c]} = ∅)) as [->|]; [done | contradiction].
Qed.

(** After [leaveAll(C)], [C] is in no room. *)
Lemma leaveAll_clears c reg r : c ∉ members (leaveAll c reg) r.
Proof. rewrite members_leaveAll. set_solver. Qed.

(** ** Delivery to the registered listeners *)

Lemma bind_ret_r (m : action unit) reg : (m;; ret ()) reg = m reg.
Proof.
  unfold bind, ret. destruct (m reg) as [[reg1 out1] [[]| |]]; try reflexivity.
  by rewrite app_nil_r.
Qed.

Lemma deliver_one socket event payload l reg :
  listeners_for event listeners = [l] →
  deliver socket event payload reg = invoke socket payload l reg.
Proof. unfold deliver. intros ->. apply bind_ret_r. Qed.

Lemma deliver_none socket event payload reg :
  listeners_for event listeners = [] →
  deliver socket event payload reg = (reg, [], Done ()).
Proof. unfold deliver. intros ->. reflexivity. Qed.

Lemma invoke_eq socket payload l reg :
  invoke socket payload l reg =
  let '(reg', out, r) := run_listener l socket payload reg in
  (reg', Invoke socket l :: out, r).
Proof.
  unfold invoke, bind.
  destruct (run_listener l socket payload reg) as [[reg' out] r]; reflexivity.
Qed.

Lemma step_typing socket R reg :
  step (Message socket "typing" (VStr R)) reg =
  (reg,
   Invoke socket LTyping ::
     ((λ c, Emit c "typing" None) <$> elements (members reg (PStr R) ∖ {[socket]})),
   Done ()).
Proof.
  simpl. rewrite (deliver_one _ _ _ LTyping) by reflexivity.
  rewrite invoke_eq. simpl. unfold on_typing, socket_in_emit, bind, lift. simpl.
  reflexivity.
Qed.

Lemma step_stop_typing socket R reg :
  step (Message socket "stop typing" (VStr R)) reg =
  (reg,
   Invoke socket LStopTyping ::
     ((λ c, Emit c "stop typing" None) <$> elements (members reg (PStr R) ∖ {[socket]})),
   Done ()).
Proof.
  simpl. rewrite (deliver_one _ _ _ LStopTyping) by reflexivity.
  rewrite invoke_eq. simpl. unfold on_stop_typing, socket_in_emit, bind, lift. simpl.
  reflexivity.
Qed.

Lemma step_setup socket fields uid reg :
  fields !! "_id" = Some (VStr uid) →
  step (Message socket "setup" (VObj fields)) reg =
  (join (PStr uid) socket reg,
   [Invoke socket LSetup; Emit socket "connected" None], Done ()).
Proof.
  intros Hid. simpl. rewrite (deliver_one _ _ _ LSetup) by reflexivity.
  rewrite invoke_eq. simpl.
  unfold on_setup, socket_join, socket_emit, bind, lift, get. rewrite Hid. simpl.
  reflexivity.
Qed.

Lemma step_join_chat socket R reg :
  step (Message socket "join chat" (VStr R)) reg =
  (join (PStr R) socket reg,
   [Invoke socket LJoinChat; Log ("User Joined Room: " +:+ R)], Done ()).
Proof.
  simpl. rewrite (deliver_one _ _ _ LJoinChat) by reflexivity.
  rewrite invoke_eq. simpl.
  unfold on_join_chat, socket_join, console_log, bind, lift. simpl.
  reflexivity.
Qed.

Lemma run_cons i l reg :
  run (i :: l) reg = (step i;; run l) reg.
Proof. reflexivity. Qed.

Lemma emit_in_broadcast (event : string) (payload : option value) (s : gset conn) c ev p :
  Emit c ev p ∈ ((λ c', Emit c' event payload) <$> elements s) ↔
  ev = event ∧ p = payload ∧ c ∈ s.
Proof.
  rewrite list_elem_of_fmap. setoid_rewrite elem_of_elements. split.
  - intros (c' & [= -> -> ->] & Hc). done.
  - intros (-> & -> & Hc). eauto.
Qed.

Lemma filter_absent (l : list conn) (x : conn) :
  x ∉ l → filter (λ y, y = x) l = [].
Proof.
  induction l as [|y l IH]; intros Hx; [done|].
  apply not_elem_of_cons in Hx as [Hne Hx].
  rewrite filter_cons_False by congruence. by apply IH.
Qed.

Lemma occurs_once (l : list conn) (x : conn) :
  NoDup l → x ∈ l → length (filter (λ y, y = x) l) = 1%nat.
Proof.
  induction 1 as [|y l Hy Hnd IH]; intros Hx.
  - by apply elem_of_nil in Hx.
  - rewrite filter_cons. destruct (decide (y = x)) as [->|Hne].
    + simpl. by rewrite filter_absent.
    + apply IH. apply elem_of_cons in Hx as [->|Hx]; done.
Qed.

(** ** Typing indicators *)

(** C4: a [typing] or [stop typing] event that connection [socket] sends
    for room [R] returns normally, leaves the registry alone, and pushes the
    event of the same name to exactly the members of [R] other than [socket];
    [socket] itself receives nothing, member of [R] or not. *)
Theorem typing_reaches_room_except_sender (socket : conn) (R : string) (reg : rooms) :
  let delivered (name : string) :=
    let r := step (Message socket name (VStr R)) reg in
    result_of r = Done () ∧ registry_of r = reg ∧
    (∀ c ev p, Emit c ev p ∈ trace_of r ↔
       ev = name ∧ p = None ∧ c ∈ members reg (PStr R) ∧ c ≠ socket) ∧
    (∀ ev p, Emit socket ev p ∉ trace_of r) in
  delivered "typing" ∧ delivered "stop typing".
Proof.
  assert (Hin : ∀ (name : string) l c ev p,
    Emit c ev p ∈ Invoke socket l ::
      ((λ c', Emit c' name None) <$> elements (members reg (PStr R) ∖ {[socket]})) ↔
    ev = name ∧ p = None ∧ c ∈ members reg (PStr R) ∧ c ≠ socket).
  { intros name l c ev p. rewrite elem_of_cons, emit_in_broadcast.
    rewrite elem_of_difference, not_elem_of_singleton. naive_solver. }
  cbv zeta. split.
  - rewrite step_typing. unfold result_of, registry_of, trace_of; simpl.
    split_and!; try done.
    intros ev p Hs. apply Hin in Hs. naive_solver.
  - rewrite step_stop_typing. unfold result_of, registry_of, trace_of; simpl.
    split_and!; try done.
    intros ev p Hs. apply Hin in Hs. naive_solver.
Qed.

(** ** Setup *)

(** C5: a [setup] event whose payload carries the user id [uid] joins the
    sending connection to the room keyed by [uid] and emits [connected] to
    that connection and to no other. *)
Theorem setup_joins_personal_room (socket : conn) (fields : gmap string value)
    (uid : string) (reg : rooms) :
  fields !! "_id" = Some (VStr uid) →
  let r := step (Message socket "setup" (VObj fields)) reg in
  result_of r = Done () ∧
  registry_of r = join (PStr uid) socket reg ∧
  socket ∈ members (registry_of r) (PStr uid) ∧
  (∀ c ev p, Emit c ev p ∈ trace_of r ↔ c = socket ∧ ev = "connected" ∧ p = None).
Proof.
  intros Hid. cbv zeta. rewrite (step_setup _ _ _ _ Hid).
  unfold result_of, registry_of, trace_of; simpl. split_and!; try done.
  - apply elem_of_members_join. by left.
  - intros c ev p. rewrite !elem_of_cons, elem_of_nil. naive_solver.
Qed.

Lemma setup_joins_personal_room_witness :
  let r := step (Message 7%nat "setup" (descriptor "u1")) ∅ in
  result_of r = Done () ∧
  registry_of r = join (PStr "u1") 7%nat ∅ ∧
  7%nat ∈ members (registry_of r) (PStr "u1") ∧
  (∀ c ev p, Emit c ev p ∈ trace_of r ↔ c = 7%nat ∧ ev = "connected" ∧ p = None).
Proof.
  apply (setup_joins_personal_room 7%nat {[ "_id" := VStr "u1" ]} "u1" ∅).
  reflexivity.
Defined.

(** ** Joining a conversation room *)

Lemma run_join_chat_repeat socket R n reg :
  registry_of (run (replicate (S n) (Message socket "join chat" (VStr R))) reg)
    = join (PStr R) socket reg ∧
  result_of (run (replicate (S n) (Message socket "join chat" (VStr R))) reg)
    = Done ().
Proof.
  revert reg. induction n as [|n IH]; intros reg.
  - simpl replicate. rewrite run_cons. unfold bind. rewrite step_join_chat. done.
  - change (replicate (S (S n)) ?x) with (x :: replicate (S n) x).
    rewrite run_cons. unfold bind. rewrite step_join_chat.
    destruct (IH (join (PStr R) socket reg)) as [Hreg Hres].
    destruct (run _ _) as [[reg2 out2] res]. unfold registry_of, result_of in *.
    simpl in *. by rewrite Hreg, join_idemp.
Qed.

(** C6: after one or more [join chat] events for room [R] from connection
    [socket], the registry is the one a single join leaves: [socket] occurs
    exactly once among the members of [R], and no member set differs from
    what it was after the first join. *)
Theorem join_chat_idempotent (socket : conn) (R : string) (n : nat) (reg : rooms) :
  let once := registry_of (step (Message socket "join chat" (VStr R)) reg) in
  let r := run (replicate (S n) (Message socket "join chat" (VStr R))) reg in
  result_of r = Done () ∧
  length (filter (λ c, c = socket) (elements (members (registry_of r) (PStr R)))) = 1%nat ∧
  registry_of r = once ∧
  (∀ r', members (registry_of r) r' = members once r').
Proof.
  cbv zeta. destruct (run_join_chat_repeat socket R n reg) as [Hreg Hres].
  rewrite step_join_chat, Hreg, Hres. unfold registry_of. simpl.
  split_and!; try done.
  apply occurs_once; [apply NoDup_elements|].
  apply elem_of_elements, elem_of_members_join. by left.
Qed.

(** ** What no client event can do *)

Section keeps.
Context (P : listener → Prop).

Lemma keeps_ret {A} (a : A) : keeps P (ret a).
Proof. intros reg. split; [intros c l Hin; by apply elem_of_nil in Hin | done]. Qed.

Lemma keeps_lift {A} (o : outcome A) : keeps P (lift o).
Proof. intros reg. split; [intros c l Hin; by apply elem_of_nil in Hin | done]. Qed.

Lemma keeps_bind {A B} (m : action A) (k : A → action B) :
  keeps P m → (∀ a, keeps P (k a)) → keeps P (bind m k).
Proof.
  intros Hm Hk reg. unfold bind. destruct (Hm reg) as [Hm1 Hm2].
  destruct (m reg) as [[reg1 out1] [a| |]]; [|done..].
  destruct (Hk a reg1) as [Hk1 Hk2].
  destruct (k a reg1) as [[reg2 out2] res].
  unfold trace_of, registry_of in *; simpl in *. split.
  - intros c l [Hin|Hin]%elem_of_app; eauto.
  - eauto.
Qed.

Lemma keeps_each {A} (f : A → action unit) (l : list A) :
  (∀ x, x ∈ l → keeps P (f x)) → keeps P (each f l).
Proof.
  induction l as [|x l IH]; intros Hf; simpl.
  - apply keeps_ret.
  - apply keeps_bind; [apply Hf; left | intros _; apply IH].
    intros y Hy. apply Hf. by right.
Qed.

Lemma keeps_console_log line : keeps P (console_log line).
Proof.
  intros reg. split; [|done]. unfold trace_of; simpl.
  intros c l Hin. apply list_elem_of_singleton in Hin. discriminate.
Qed.

Lemma keeps_socket_emit socket event : keeps P (socket_emit socket event).
Proof.
  intros reg. split; [|done]. unfold trace_of; simpl.
  intros c l Hin. apply list_elem_of_singleton in Hin. discriminate.
Qed.

Lemma keeps_socket_join socket v : keeps P (socket_join socket v).
Proof.
  apply keeps_bind; [apply keeps_lift|]. intros r reg. split.
  - intros c l Hin. by apply elem_of_nil in Hin.
  - intros c r' Hc. unfold registry_of; simpl.
    apply elem_of_members_join. by right.
Qed.

Lemma keeps_socket_in_emit socket v event payload :
  keeps P (socket_in_emit socket v event payload).
Proof.
  apply keeps_bind; [apply keeps_lift|]. intros r reg. split; [|done].
  unfold trace_of; simpl. intros c l Hin.
  apply list_elem_of_fmap in Hin as (c' & Heq & _). discriminate.
Qed.

Lemma keeps_for_each v (f : value → action unit) :
  (∀ x, keeps P (f x)) → keeps P (for_each v f).
Proof.
  intros Hf. destruct v; simpl; [apply keeps_lift | | apply keeps_lift].
  apply keeps_each. auto.
Qed.
End keeps.

Create HintDb keeps.
#[local] Hint Resolve keeps_ret keeps_lift keeps_console_log keeps_socket_emit
  keeps_socket_join keeps_socket_in_emit : keeps.

Ltac keeps_steps :=
  repeat first
    [ progress eauto with keeps
    | apply keeps_bind; [|intros ?]
    | apply keeps_for_each; intros ?
    | match goal with |- keeps _ (if ?b then _ else _) => destruct b end ].

(** The five registered callbacks write no mark of their own and only ever
    add a connection to a room. *)
Lemma keeps_registered P l socket payload :
  l ≠ LTeardown → keeps P (run_listener l socket payload).
Proof.
  intros Hl. destruct l; simpl; [..|done];
    unfold on_setup, on_join_chat, on_typing, on_stop_typing, on_new_message,
      notify; keeps_steps.
Qed.

Lemma listeners_for_registered event l :
  l ∈ listeners_for event listeners → l ≠ LTeardown.
Proof.
  unfold listeners_for. rewrite listeners_after_connection.
  intros ((ev & l') & -> & [_ Hin]%list_elem_of_filter)%list_elem_of_fmap.
  simpl. rewrite !elem_of_cons, elem_of_nil in Hin.
  intros ->. naive_solver.
Qed.

Lemma keeps_deliver socket event payload :
  keeps (λ l, l ≠ LTeardown) (deliver socket event payload).
Proof.
  apply keeps_each. intros l Hl%listeners_for_registered.
  unfold invoke. apply keeps_bind.
  - intros reg. split; [|done]. unfold trace_of; simpl.
    intros c l' Hin. apply list_elem_of_singleton in Hin. by simplify_eq.
  - intros _. by apply keeps_registered.
Qed.

Lemma keeps_step i : keeps (λ l, l ≠ LTeardown) (step i).
Proof.
  destruct i; simpl; [apply keeps_deliver|].
  apply keeps_bind; [|intros _]; apply keeps_deliver.
Qed.

(** C9: the callback handed to [socket.off('setup', ...)] is registered for
    no event, so whatever clients send and whichever connections close, the
    transport never calls it and its [socket.leave] never runs; the
    callbacks that do run take no connection out of a room it was in. *)
Theorem teardown_never_runs (events : list inbound) (reg : rooms) :
  (∀ event, LTeardown ∉ listeners_for event listeners) ∧
  (∀ c, Invoke c LTeardown ∉ trace_of (run events reg)) ∧
  (∀ c r, c ∈ members reg r → c ∈ members (registry_of (run events reg)) r).
Proof.
  assert (Hrun : keeps (λ l, l ≠ LTeardown) (run events)).
  { apply keeps_each. intros i _. apply keeps_step. }
  destruct (Hrun reg) as [Hmark Hgrow]. split_and!.
  - intros event Hin. by apply listeners_for_registered in Hin.
  - intros c Hin. by apply Hmark in Hin.
  - exact Hgrow.
Qed.

(** ** Malformed [new message] events *)

Lemma step_new_message socket msg reg :
  step (Message socket "new message" msg) reg =
  let '(reg', out, r) := on_new_message socket msg reg in
  (reg', Invoke socket LNewMessage :: out, r).
Proof.
  simpl. rewrite (deliver_one _ _ _ LNewMessage) by reflexivity.
  by rewrite invoke_eq.
Qed.

(** The guard of the callback: when [chat] can be read and [chat.users] is
    falsy, the event is dropped with one console line. *)
Lemma new_message_falsy_users_dropped socket msg users reg :
  chat_users msg = Done users → truthy users = false →
  step (Message socket "new message" msg) reg =
  (reg, [Invoke socket LNewMessage; Log "chat.users not defined"], Done ()).
Proof.
  intros Hu Ht. rewrite step_new_message. unfold chat_users in Hu.
  unfold on_new_message, bind, lift, console_log.
  destruct (get msg "chat") as [chat| |]; [|done..]. simpl.
  rewrite Hu. simpl. by rewrite Ht.
Qed.

(** Whatever the payload, an event whose [chat.users] is no array pushes
    nothing and leaves the registry alone. *)
Lemma new_message_without_array_pushes_nothing socket msg reg :
  (∀ users, chat_users msg ≠ Done (VArr users)) →
  let r := step (Message socket "new message" msg) reg in
  registry_of r = reg ∧ ∀ c ev p, Emit c ev p ∉ trace_of r.
Proof.
  intros Hu. cbv zeta. rewrite step_new_message. unfold chat_users in Hu.
  unfold on_new_message, bind, lift, console_log.
  destruct (get msg "chat") as [chat| |]; simpl;
    [|split; [done|intros c ev p Hin; set_solver]..].
  destruct (get chat "users") as [users| |]; simpl;
    [|split; [done|intros c ev p Hin; set_solver]..].
  destruct (truthy users); simpl; [|split; [done|intros c ev p Hin; set_solver]].
  destruct users as [q|users|]; simpl; [| by destruct (Hu users) |];
    (split; [done|intros c ev p Hin; set_solver]).
Qed.

(** C1, what the code does: the callback reads [chat.users] before it tests
    it, so a payload with no [chat] field makes it throw a TypeError instead
    of returning after a console line; and a [chat.users] that is truthy but
    no array (here the number 5) passes the test and makes the [forEach] call
    throw.  Neither run pushes anything. *)
Theorem new_message_without_chat_throws (socket : conn) (reg : rooms) :
  step (Message socket "new message" (VObj ∅)) reg =
    (reg, [Invoke socket LNewMessage], Raised TypeError) ∧
  step (Message socket "new message" undefined) reg =
    (reg, [Invoke socket LNewMessage], Raised TypeError) ∧
  step (Message socket "new message"
          (VObj {[ "chat" := VObj {[ "users" := VNum 5 ]} ]})) reg =
    (reg, [Invoke socket LNewMessage], Raised TypeError).
Proof. split_and!; rewrite step_new_message; reflexivity. Qed.

(** ** Transport close *)

Lemma step_close socket reason reg :
  step (Close socket reason) reg = (reg, [], Done ()).
Proof.
  simpl. unfold bind.
  rewrite !deliver_none by reflexivity. reflexivity.
Qed.

(** The running program and the callbacks agree on every event a client
    sends. *)
Lemma serve_message socket event payload :
  serve (Message socket event payload) = step (Message socket event payload).
Proof. reflexivity. Qed.

Lemma serve_close socket reason reg :
  serve (Close socket reason) reg = (leaveAll socket reg, [], Done ()).
Proof.
  simpl. unfold transport_close, bind.
  rewrite !deliver_none by reflexivity. reflexivity.
Qed.

Lemma serve_all_app l1 l2 reg :
  serve_all (l1 ++ l2) reg = (serve_all l1;; serve_all l2) reg.
Proof.
  unfold serve_all. revert reg. induction l1 as [|i l1 IH]; intros reg; simpl.
  - unfold bind, ret. by destruct (each serve l2 reg) as [[reg2 out2] res].
  - unfold bind in *. destruct (serve i reg) as [[reg1 out1] [[]| |]]; [|done..].
    rewrite IH.
    destruct (each serve l1 reg1) as [[reg2 out2] [[]| |]]; [|done..].
    destruct (each serve l2 reg2) as [[reg3 out3] res]. by rewrite app_assoc.
Qed.

Lemma marks_bind {A B} P (m : action A) (k : A → action B) :
  marks P m → (∀ a, marks P (k a)) → marks P (bind m k).
Proof.
  intros Hm Hk reg c l. unfold bind. specialize (Hm reg c l).
  destruct (m reg) as [[reg1 out1] [a| |]]; [|done..].
  specialize (Hk a reg1 c l). destruct (k a reg1) as [[reg2 out2] res].
  unfold trace_of in *; simpl in *. intros [Hin|Hin]%elem_of_app; auto.
Qed.

Lemma marks_deliver socket event payload :
  marks (λ l, l ≠ LTeardown) (deliver socket event payload).
Proof. intros reg c l. apply (keeps_deliver socket event payload reg). Qed.

(** In the running program too, closes included, the callback handed to
    [socket.off] is never called. *)
Lemma teardown_never_served (l : list inbound) (reg : rooms) (c : conn) :
  Invoke c LTeardown ∉ trace_of (serve_all l reg).
Proof.
  assert (Hserve : ∀ i, marks (λ l, l ≠ LTeardown) (serve i)).
  { intros [socket event payload|socket reason]; simpl; [apply marks_deliver|].
    unfold transport_close. apply marks_bind; [apply marks_deliver|intros _].
    apply marks_bind; [|intros _; apply marks_deliver].
    intros reg' c' l' Hin. by apply elem_of_nil in Hin. }
  assert (Hall : marks (λ l, l ≠ LTeardown) (serve_all l)).
  { unfold serve_all. induction l as [|i l IH]; simpl.
    - intros reg' c' l' Hin. by apply elem_of_nil in Hin.
    - apply marks_bind; [apply Hserve | intros _; apply IH]. }
  intros Hin. by apply Hall in Hin.
Qed.

Example close_after_setup_and_joins :
  serve_all [ Message 1%nat "setup" (descriptor "u1");
              Message 1%nat "join chat" (VStr "conv1");
              Message 1%nat "join chat" (VStr "conv2");
              Close 1%nat "transport close" ] ∅
  = (∅,
     [ Invoke 1%nat LSetup; Emit 1%nat "connected" None;
       Invoke 1%nat LJoinChat; Log "User Joined Room: conv1";
       Invoke 1%nat LJoinChat; Log "User Joined Room: conv2" ],
     Done ()).
Proof. vm_compute. reflexivity. Qed.

Example close_without_setup :
  serve (Close 1%nat "transport close") (join (PStr "u2") 2%nat ∅)
  = (join (PStr "u2") 2%nat ∅, [], Done ()).
Proof. vm_compute. reflexivity. Qed.

(** C2: when the transport of a connection closes, the close amounts to one
    [leaveAll] of that connection, whatever the registry holds: set up or
    not, and however many rooms it had joined, the connection is a member of
    no room afterwards, while the memberships of every other connection
    stay as they were.  The listeners of the source add nothing to it (none
    is registered for the close), and the same holds at the end of any
    history of events that ran to completion. *)
Theorem close_leaves_all_rooms (socket : conn) (reason : string) (reg : rooms) :
  serve (Close socket reason) reg = (leaveAll socket reg, [], Done ()) ∧
  (∀ r, socket ∉ members (registry_of (serve (Close socket reason) reg)) r) ∧
  (∀ c r, c ≠ socket →
     (c ∈ members (registry_of (serve (Close socket reason) reg)) r ↔ c ∈ members reg r)) ∧
  (∀ history,
     result_of (serve_all history reg) = Done () →
     result_of (serve_all (history ++ [Close socket reason]) reg) = Done () ∧
     ∀ r, socket ∉ members (registry_of (serve_all (history ++ [Close socket reason]) reg)) r).
Proof.
  rewrite serve_close. unfold registry_of at 1 2; simpl. split_and!.
  - done.
  - intros r. apply leaveAll_clears.
  - intros c r Hc. rewrite members_leaveAll. set_solver.
  - intros history Hdone. rewrite serve_all_app. unfold bind.
    destruct (serve_all history reg) as [[reg1 out1] res].
    unfold result_of in Hdone; simpl in Hdone. subst res.
    change (serve_all [Close socket reason] reg1)
      with ((serve (Close socket reason);; ret ()) reg1).
    rewrite bind_ret_r, serve_close. unfold result_of, registry_of; simpl.
    split; [done|]. intros r. apply leaveAll_clears.
Qed.

(** ** Fan-out of [new message] *)

Lemma frozen_lift {A} (o : outcome A) : frozen (lift o).
Proof. done. Qed.

Lemma frozen_bind {A B} (m : action A) (k : A → action B) :
  frozen m → (∀ a, frozen (k a)) → frozen (bind m k).
Proof.
  intros Hm Hk reg. unfold bind. specialize (Hm reg).
  destruct (m reg) as [[reg1 out1] [a| |]]; [|done..].
  specialize (Hk a reg1). destruct (k a reg1) as [[reg2 out2] res].
  unfold registry_of in *; simpl in *. congruence.
Qed.

Lemma frozen_each {A} (f : A → action unit) (l : list A) :
  (∀ x, frozen (f x)) → frozen (each f l).
Proof.
  intros Hf. induction l as [|x l IH]; simpl; [done|].
  apply frozen_bind; auto.
Qed.

Lemma frozen_socket_in_emit socket v event payload :
  frozen (socket_in_emit socket v event payload).
Proof. apply frozen_bind; [apply frozen_lift | done]. Qed.

Lemma frozen_notify socket msg user : frozen (notify socket msg user).
Proof.
  unfold notify.
  repeat first
    [ apply frozen_lift | apply frozen_socket_in_emit
    | apply frozen_bind; [|intros ?]
    | match goal with |- frozen (if ?b then _ else _) => destruct b end
    | done ].
Qed.

Lemma frozen_on_new_message socket msg : frozen (on_new_message socket msg).
Proof.
  unfold on_new_message.
  apply frozen_bind; [apply frozen_lift | intros chat].
  apply frozen_bind; [apply frozen_lift | intros users].
  destruct (negb (truthy users)); [done|].
  destruct users; simpl; [done | | done].
  apply frozen_each, frozen_notify.
Qed.

(** An output of a [forEach] over registry-preserving calls is an output of
    one of the calls. *)
Lemma each_trace {A} (f : A → action unit) (l : list A) reg o :
  (∀ x, frozen (f x)) →
  o ∈ trace_of (each f l reg) → ∃ x, x ∈ l ∧ o ∈ trace_of (f x reg).
Proof.
  intros Hf. induction l as [|x l IH]; simpl.
  - intros Hin. by apply elem_of_nil in Hin.
  - unfold bind. pose proof (Hf x reg) as Hx.
    destruct (f x reg) as [[reg1 out1] res] eqn:Hfx.
    unfold registry_of in Hx; simpl in Hx; subst reg1.
    assert (Hhd : o ∈ out1 → ∃ y, y ∈ x :: l ∧ o ∈ trace_of (f y reg)).
    { intros Hin. exists x. split; [left|]. by rewrite Hfx. }
    destruct res as [[]| |]; [|done..].
    destruct (each f l reg) as [[reg2 out2] res2].
    unfold trace_of in *; simpl in *.
    intros [Hin|Hin]%elem_of_app; [auto|].
    destruct (IH Hin) as (y & Hy & Ho). exists y. split; [by right | done].
Qed.

Lemma user_id_get v uid : user_id v = Some uid → get v "_id" = Done (VStr uid).
Proof.
  destruct v as [p|l|fields]; simpl; try done.
  destruct (fields !! "_id") as [[[| | | |s]| |]|]; simpl; try done.
  by intros [= ->].
Qed.

Lemma notify_descriptor socket msg user uid sender sid reg :
  user_id user = Some uid →
  get msg "sender" = Done sender → user_id sender = Some sid →
  notify socket msg user reg =
  (reg, if String.eqb uid sid then [] else pushes socket msg reg (PStr uid), Done ()).
Proof.
  intros Hu%user_id_get Hs Hsid%user_id_get.
  unfold notify, bind, lift. rewrite Hu. simpl. rewrite Hs. simpl.
  rewrite Hsid. simpl.
  destruct (String.eqb uid sid); simpl; [done|].
  done.
Qed.

Lemma each_notify socket msg users uids sender sid reg :
  Forall2 (λ u uid, user_id u = Some uid) users uids →
  get msg "sender" = Done sender → user_id sender = Some sid →
  each (notify socket msg) users reg =
  (reg,
   uids ≫= (λ uid, if String.eqb uid sid then [] else pushes socket msg reg (PStr uid)),
   Done ()).
Proof.
  intros Hall Hs Hsid. induction Hall as [|u uid users uids Hu _ IH]; [done|].
  simpl. unfold bind at 1. rewrite (notify_descriptor _ _ _ _ _ _ _ Hu Hs Hsid).
  by rewrite IH.
Qed.

Lemma well_formed_inv msg uids sid :
  well_formed msg = Some (uids, sid) →
  ∃ fields chat users sender,
    msg = VObj fields ∧ fields !! "chat" = Some (VObj chat) ∧
    chat !! "users" = Some (VArr users) ∧ fields !! "sender" = Some sender ∧
    Forall2 (λ u uid, user_id u = Some uid) users uids ∧ user_id sender = Some sid.
Proof.
  destruct msg as [p|l|fields]; simpl; try done.
  destruct (fields !! "chat") as [[p|l|chat]|] eqn:Hchat; try done.
  destruct (fields !! "sender") as [sender|] eqn:Hsender; try done.
  destruct (chat !! "users") as [[p|users|o]|] eqn:Husers; try done.
  destruct (mapM user_id users) as [uids'|] eqn:Hm; try done.
  destruct (user_id sender) as [sid'|] eqn:Hsid; try done.
  intros [= <- <-]. apply mapM_Some in Hm.
  by exists fields, chat, users, sender.
Qed.

Lemma step_new_message_well_formed socket msg uids sid reg :
  well_formed msg = Some (uids, sid) →
  step (Message socket "new message" msg) reg =
  (reg,
   Invoke socket LNewMessage ::
     (uids ≫= (λ uid, if String.eqb uid sid then [] else pushes socket msg reg (PStr uid))),
   Done ()).
Proof.
  intros (fields & chat & users & sender & -> & Hchat & Husers & Hsender & Hall & Hsid)
    %well_formed_inv.
  rewrite step_new_message. unfold on_new_message, bind, lift, get.
  rewrite Hchat. simpl. rewrite Husers. simpl.
  erewrite each_notify; [reflexivity | done | by unfold get; rewrite Hsender | done].
Qed.

(** C3, as amended: for a well-formed [new message] payload the callback
    returns normally, leaves the registry alone, and pushes
    ['message recieved'], carrying the payload it received, to exactly the
    connections other than the sending one that are members of the personal
    room of a recipient whose id differs from the sender's id; a descriptor
    with the sender's id causes no push. *)
Theorem new_message_fans_out_except_sender (socket : conn) (msg : value)
    (uids : list string) (sid : string) (reg : rooms) :
  well_formed msg = Some (uids, sid) →
  let r := step (Message socket "new message" msg) reg in
  result_of r = Done () ∧ registry_of r = reg ∧
  (∀ c ev p, Emit c ev p ∈ trace_of r ↔
     ev = "message recieved" ∧ p = Some msg ∧ c ≠ socket ∧
     ∃ uid, uid ∈ uids ∧ uid ≠ sid ∧ c ∈ members reg (PStr uid)).
Proof.
  intros Hwf. cbv zeta. rewrite (step_new_message_well_formed _ _ _ _ _ Hwf).
  unfold result_of, registry_of, trace_of; simpl. split_and!; try done.
  intros c ev p. rewrite elem_of_cons, list_elem_of_bind. split.
  - intros [?|(uid & Hin & Huid)]; [done|].
    destruct (String.eqb uid sid) eqn:Hne; [by apply elem_of_nil in Hin|].
    apply String.eqb_neq in Hne.
    apply emit_in_broadcast in Hin as (-> & -> & Hc).
    apply elem_of_difference in Hc as [Hc Hs%not_elem_of_singleton]. eauto 10.
  - intros (-> & -> & Hs & uid & Huid & Hne & Hc). right. exists uid. split; [|done].
    apply String.eqb_neq in Hne. rewrite Hne.
    apply emit_in_broadcast. split_and!; try done.
    apply elem_of_difference. by rewrite not_elem_of_singleton.
Qed.

Lemma new_message_fans_out_except_sender_witness :
  let msg := message [descriptor "u1"; descriptor "u2"] (descriptor "u1") in
  let reg := join (PStr "u2") 2%nat (join (PStr "u1") 1%nat ∅) in
  let r := step (Message 1%nat "new message" msg) reg in
  result_of r = Done () ∧ registry_of r = reg ∧
  (∀ c ev p, Emit c ev p ∈ trace_of r ↔
     ev = "message recieved" ∧ p = Some msg ∧ c ≠ 1%nat ∧
     ∃ uid, uid ∈ ["u1"; "u2"] ∧ uid ≠ "u1" ∧ c ∈ members reg (PStr uid)).
Proof.
  apply (new_message_fans_out_except_sender 1%nat
           (message [descriptor "u1"; descriptor "u2"] (descriptor "u1"))
           ["u1"; "u2"] "u1").
  vm_compute. reflexivity.
Defined.

(** C3, as stated, fails: connection 1 is a member of the personal room of
    recipient [u2], whose id differs from the sender's, and still gets no
    push of the message it sends. *)
Lemma new_message_skips_sending_connection :
  let msg := message [descriptor "u2"] (descriptor "u1") in
  let reg := join (PStr "u2") 1%nat ∅ in
  well_formed msg = Some (["u2"], "u1") ∧
  1%nat ∈ members reg (PStr "u2") ∧
  Emit 1%nat "message recieved" (Some msg)
    ∉ trace_of (step (Message 1%nat "new message" msg) reg).
Proof.
  cbv zeta. split_and!.
  - vm_compute. reflexivity.
  - apply elem_of_members_join. by left.
  - rewrite (step_new_message_well_formed _ _ ["u2"] "u1") by (vm_compute; reflexivity).
    unfold trace_of, pushes; simpl. rewrite app_nil_r, elem_of_cons.
    intros [?|Hin]; [done|].
    apply emit_in_broadcast in Hin as (_ & _ & Hin). set_solver.
Qed.

(** ** The sender test of [new message] *)

(** Every push of the [forEach] callback goes to a member, other than the
    sending connection, of the room keyed by the [_id] of its descriptor,
    and only when [==] found that [_id] different from the sender's. *)
Lemma notify_trace socket msg user reg c ev pl :
  Emit c ev pl ∈ trace_of (notify socket msg user reg) →
  ∃ p sender sid,
    get user "_id" = Done (VPrim p) ∧
    get msg "sender" = Done sender ∧ get sender "_id" = Done sid ∧
    loose_eq (VPrim p) sid = Done false ∧
    ev = "message recieved" ∧ pl = Some msg ∧
    c ∈ members reg p ∧ c ≠ socket.
Proof.
  unfold notify, bind, lift.
  destruct (get user "_id") as [uid| |] eqn:Hu; simpl; [|set_solver..].
  destruct (get msg "sender") as [sender| |] eqn:Hs; simpl; [|set_solver..].
  destruct (get sender "_id") as [sid| |] eqn:Hsid; simpl; [|set_solver..].
  destruct (loose_eq uid sid) as [[]| |] eqn:Heq; simpl; [set_solver| |set_solver..].
  unfold socket_in_emit, bind, lift.
  destruct uid as [p| |]; simpl; [|set_solver..].
  unfold trace_of; simpl.
  intros (-> & -> & Hc)%emit_in_broadcast.
  apply elem_of_difference in Hc as [Hc Hne%not_elem_of_singleton].
  exists p, sender, sid. done.
Qed.

(** Two registries that agree on every room whose key [==] tells apart from
    the sender's id give the callback the same trace and result. *)
Lemma notify_independent socket msg user reg reg' :
  (∀ r sender sid,
     get msg "sender" = Done sender → get sender "_id" = Done sid →
     loose_eq (VPrim r) sid = Done false → members reg' r = members reg r) →
  trace_of (notify socket msg user reg') = trace_of (notify socket msg user reg) ∧
  result_of (notify socket msg user reg') = result_of (notify socket msg user reg).
Proof.
  intros Hagree. unfold notify, bind, lift.
  destruct (get user "_id") as [uid| |] eqn:Hu; simpl; [|done..].
  destruct (get msg "sender") as [sender| |] eqn:Hs; simpl; [|done..].
  destruct (get sender "_id") as [sid| |] eqn:Hsid; simpl; [|done..].
  destruct (loose_eq uid sid) as [[]| |] eqn:Heq; simpl; [done| |done..].
  unfold socket_in_emit, bind, lift.
  destruct uid as [p| |]; simpl; [|done..].
  unfold trace_of, result_of; simpl.
  by rewrite (Hagree p sender sid).
Qed.

Lemma each_independent {A} (f : A → action unit) (l : list A) reg reg' :
  (∀ x, frozen (f x)) →
  (∀ x, trace_of (f x reg') = trace_of (f x reg) ∧
        result_of (f x reg') = result_of (f x reg)) →
  trace_of (each f l reg') = trace_of (each f l reg) ∧
  result_of (each f l reg') = result_of (each f l reg).
Proof.
  intros Hf Hsame. induction l as [|x l IH]; simpl; [done|].
  unfold bind. destruct (Hsame x) as [Ht Hr].
  pose proof (Hf x reg) as H1. pose proof (Hf x reg') as H2.
  destruct (f x reg) as [[reg1 out1] res1], (f x reg') as [[reg2 out2] res2].
  unfold trace_of, result_of, registry_of in *; simpl in *. subst.
  destruct res1 as [[]| |]; [|done..].
  destruct IH as [IHt IHr].
  destruct (each f l reg) as [[reg3 out3] res3], (each f l reg') as [[reg4 out4] res4].
  simpl in *. by subst.
Qed.

Lemma loose_eq_prim_true p q :
  loose_eq_prim p q = Some true → loose_eq (VPrim p) (VPrim q) = Done true.
Proof. unfold loose_eq. by intros ->. Qed.

(** C10: the sender test is the loose [==].  In a [new message] event, a
    recipient descriptor whose [_id] is loosely equal to [sender._id]
    without being strictly equal (the number 5 against the string "5") is
    skipped: the [forEach] callback returns for it without a push; every
    push of the event goes through a room with another key; and the trace
    of the event does not depend on who is in the room keyed by that
    [_id]. *)
Theorem loosely_equal_recipient_skipped (socket : conn)
    (msg chat sender user : value) (users : list value) (p q : prim) (reg : rooms) :
  get msg "chat" = Done chat → get chat "users" = Done (VArr users) →
  get msg "sender" = Done sender → get sender "_id" = Done (VPrim q) →
  user ∈ users → get user "_id" = Done (VPrim p) →
  loose_eq_prim p q = Some true → strict_eq_prim p q = false →
  notify socket msg user reg = (reg, [], Done ()) ∧
  (∀ c ev pl,
     Emit c ev pl ∈ trace_of (step (Message socket "new message" msg) reg) →
     ∃ user' p', user' ∈ users ∧ get user' "_id" = Done (VPrim p') ∧ p' ≠ p ∧
                 c ∈ members reg p' ∧ c ≠ socket) ∧
  (∀ reg', (∀ r, r ≠ p → members reg' r = members reg r) →
     trace_of (step (Message socket "new message" msg) reg') =
     trace_of (step (Message socket "new message" msg) reg)).
Proof.
  intros Hchat Husers Hsender Hsid Hin Hu Hloose _.
  pose proof (loose_eq_prim_true _ _ Hloose) as Heq.
  assert (Hrun : ∀ reg0, on_new_message socket msg reg0 =
                         each (notify socket msg) users reg0).
  { intros reg0. unfold on_new_message, bind, lift.
    rewrite Hchat. simpl. rewrite Husers. simpl.
    destruct (each _ _ _) as [[reg2 out2] res]. reflexivity. }
  split_and!.
  - unfold notify, bind, lift. rewrite Hu. cbn -[loose_eq].
    rewrite Hsender. cbn -[loose_eq]. rewrite Hsid. cbn -[loose_eq].
    rewrite Heq. reflexivity.
  - intros c ev pl. rewrite step_new_message, Hrun.
    destruct (each _ _ _) as [[reg2 out2] res] eqn:Heach.
    unfold trace_of; simpl. rewrite elem_of_cons. intros [?|Hout]; [done|].
    assert (Hout' : Emit c ev pl ∈ trace_of (each (notify socket msg) users reg))
      by by rewrite Heach.
    apply each_trace in Hout' as (user' & Hin' & Hout'); [|apply frozen_notify].
    apply notify_trace in Hout'
      as (p' & sender' & sid' & Hu' & Hs' & Hsid' & Hne & _ & _ & Hc & Hsock).
    exists user', p'. split_and!; try done.
    intros ->. congruence.
  - intros reg' Hagree. rewrite !step_new_message, !Hrun.
    destruct (each_independent (notify socket msg) users reg reg') as [Ht _].
    { apply frozen_notify. }
    { intros user'. apply notify_independent.
      intros r sender' sid' Hs' Hsid' Hne. apply Hagree. intros ->. congruence. }
    destruct (each _ _ reg) as [[reg1 out1] res1], (each _ _ reg') as [[reg2 out2] res2].
    unfold trace_of in *; simpl in *. by rewrite Ht.
Qed.

Lemma loosely_equal_recipient_skipped_witness :
  let msg := message [VObj {[ "_id" := VNum 5 ]}] (descriptor "5") in
  let reg := join (PNum 5) 2%nat ∅ in
  loose_eq_prim (PNum 5) (PStr "5") = Some true ∧
  strict_eq_prim (PNum 5) (PStr "5") = false ∧
  notify 1%nat msg (VObj {[ "_id" := VNum 5 ]}) reg = (reg, [], Done ()).
Proof.
  cbv zeta. split; [reflexivity|]. split; [reflexivity|].
  refine (proj1 (loosely_equal_recipient_skipped 1%nat
    (message [VObj {[ "_id" := VNum 5 ]}] (descriptor "5"))
    (VObj {[ "users" := VArr [VObj {[ "_id" := VNum 5 ]}] ]})
    (descriptor "5") (VObj {[ "_id" := VNum 5 ]})
    [VObj {[ "_id" := VNum 5 ]}] (PNum 5) (PStr "5")
    (join (PNum 5) 2%nat ∅) _ _ _ _ _ _ _ _)).
  - reflexivity.
  - reflexivity.
  - reflexivity.
  - reflexivity.
  - apply list_elem_of_singleton. reflexivity.
  - reflexivity.
  - reflexivity.
  - reflexivity.
Defined.

(** ** The two-user scenario *)

Lemma run_cons_done i l reg reg1 out1 :
  step i reg = (reg1, out1, Done ()) →
  run (i :: l) reg = let '(reg2, out2, r) := run l reg1 in (reg2, out1 ++ out2, r).
Proof. intros Hi. rewrite run_cons. unfold bind. by rewrite Hi. Qed.

Lemma members_empty r : members ∅ r = ∅.
Proof. unfold members. by rewrite lookup_empty. Qed.

Lemma scenario_rooms (c1 c2 : conn) :
  c1 ≠ c2 →
  let reg :=
    join (PStr "conv1") c2 (join (PStr "conv1") c1
      (join (PStr "u2") c2 (join (PStr "u1") c1 ∅))) in
  members reg (PStr "conv1") ∖ {[c1]} = {[c2]} ∧
  members reg (PStr "u2") ∖ {[c1]} = {[c2]}.
Proof.
  intros Hne reg. split; apply set_eq; intros c;
    rewrite elem_of_difference; subst reg;
    rewrite !elem_of_members_join, members_empty; set_solver.
Qed.

(** C8: both connections send [setup], both join "conv1"; the [typing] of
    the first reaches the second alone, and so does ['message recieved'] for
    the message the first sends to the users u1 and u2 as sender u1. *)
Theorem scenario_only_peer_receives (c1 c2 : conn) :
  c1 ≠ c2 →
  let msg := message [descriptor "u1"; descriptor "u2"] (descriptor "u1") in
  let r := run (scenario c1 c2) ∅ in
  result_of r = Done () ∧
  trace_of r =
    [ Invoke c1 LSetup; Emit c1 "connected" None;
      Invoke c2 LSetup; Emit c2 "connected" None;
      Invoke c1 LJoinChat; Log "User Joined Room: conv1";
      Invoke c2 LJoinChat; Log "User Joined Room: conv1";
      Invoke c1 LTyping; Emit c2 "typing" None;
      Invoke c1 LNewMessage; Emit c2 "message recieved" (Some msg) ].
Proof.
  intros Hne. destruct (scenario_rooms c1 c2 Hne) as [Hconv Hu2].
  cbv zeta. unfold scenario.
  erewrite run_cons_done by (apply (step_setup _ _ "u1"); reflexivity).
  erewrite run_cons_done by (apply (step_setup _ _ "u2"); reflexivity).
  erewrite run_cons_done by apply step_join_chat.
  erewrite run_cons_done by apply step_join_chat.
  erewrite run_cons_done by apply step_typing.
  erewrite run_cons_done
    by (apply (step_new_message_well_formed _ _ ["u1"; "u2"] "u1"); reflexivity).
  unfold result_of, trace_of, pushes; simpl.
  rewrite Hconv, Hu2, elements_singleton. done.
Qed.

Lemma scenario_only_peer_receives_witness :
  result_of (run (scenario 1%nat 2%nat) ∅) = Done () ∧
  (∀ c p, Emit c "typing" p ∈ trace_of (run (scenario 1%nat 2%nat) ∅) → c = 2%nat) ∧
  (∀ c p, Emit c "message recieved" p ∈ trace_of (run (scenario 1%nat 2%nat) ∅) → c = 2%nat).
Proof.
  destruct (scenario_only_peer_receives 1%nat 2%nat) as [Hres Htrace]; [lia|].
  rewrite Htrace. split; [exact Hres|].
  split; intros c p Hin; repeat (apply elem_of_cons in Hin as [Hin|Hin]; [by simplify_eq|]);
    by apply elem_of_nil in Hin.
Defined.

(** ** Personal rooms *)

Lemma listeners_for_other event :
  event ≠ "setup" → event ≠ "join chat" → event ≠ "typing" →
  event ≠ "stop typing" → event ≠ "new message" →
  listeners_for event listeners = [].
Proof.
  intros. unfold listeners_for. rewrite listeners_after_connection.
  rewrite !filter_cons_False by (simpl; congruence). reflexivity.
Qed.

Lemma frozen_run_listener l socket payload :
  l = LTyping ∨ l = LStopTyping ∨ l = LNewMessage →
  frozen (run_listener l socket payload).
Proof.
  intros [-> | [-> | ->]]; simpl.
  - apply frozen_socket_in_emit.
  - apply frozen_socket_in_emit.
  - apply frozen_on_new_message.
Qed.

Lemma registry_of_invoke socket payload l reg :
  registry_of (invoke socket payload l reg) =
  registry_of (run_listener l socket payload reg).
Proof.
  rewrite invoke_eq. by destruct (run_listener _ _ _ _) as [[reg' out] r].
Qed.

(** A step puts a connection into a room only through that connection's own
    [setup] or [join chat] event. *)
Lemma step_origin i reg c r :
  c ∈ members (registry_of (step i reg)) r →
  c ∈ members reg r ∨ setup_key c i = Some r ∨ join_key c i = Some r.
Proof.
  destruct i as [socket event payload|socket reason]; [|rewrite step_close; auto].
  simpl step.
  destruct (decide (event = "setup")) as [->|Hsetup].
  { rewrite (deliver_one _ _ _ LSetup), registry_of_invoke by reflexivity.
    simpl. unfold on_setup, socket_join, socket_emit, bind, lift.
    destruct (get payload "_id") as [[p| |]| |] eqn:Hid; simpl; auto.
    unfold registry_of; simpl. intros [[-> ->]|Hc]%elem_of_members_join; auto.
    right. left. by rewrite decide_True. }
  destruct (decide (event = "join chat")) as [->|Hjoin].
  { rewrite (deliver_one _ _ _ LJoinChat), registry_of_invoke by reflexivity.
    simpl. unfold on_join_chat, socket_join, console_log, bind, lift.
    destruct payload as [p| |]; simpl; auto.
    assert (Hin : c ∈ members (join p socket reg) r →
      c ∈ members reg r ∨ setup_key c (Message socket "join chat" (VPrim p)) = Some r ∨
      (if decide (socket = c ∧ "join chat" = "join chat") then Some p else None) = Some r).
    { intros [[-> ->]|Hc]%elem_of_members_join; auto.
      right. right. by rewrite decide_True. }
    by destruct (to_display p). }
  assert (Hfrozen : ∀ l, l = LTyping ∨ l = LStopTyping ∨ l = LNewMessage →
    listeners_for event listeners = [l] →
    c ∈ members (registry_of (deliver socket event payload reg)) r → c ∈ members reg r).
  { intros l Hl Hfor. rewrite (deliver_one _ _ _ l), registry_of_invoke by done.
    by rewrite (frozen_run_listener l socket payload Hl reg). }
  destruct (decide (event = "typing")) as [->|Htyping].
  { left. apply (Hfrozen LTyping); auto. }
  destruct (decide (event = "stop typing")) as [->|Hstop].
  { left. apply (Hfrozen LStopTyping); auto. }
  destruct (decide (event = "new message")) as [->|Hnew].
  { left. apply (Hfrozen LNewMessage); auto. }
  rewrite deliver_none by by apply listeners_for_other. auto.
Qed.

Lemma run_origin l reg c r :
  c ∈ members (registry_of (run l reg)) r →
  c ∈ members reg r ∨ r ∈ setup_keys c l ∨ r ∈ join_keys c l.
Proof.
  revert reg. induction l as [|i l IH]; intros reg; [auto|].
  rewrite run_cons. unfold bind, setup_keys, join_keys. simpl omap.
  pose proof (step_origin i reg c r) as Hi.
  destruct (step i reg) as [[reg1 out1] res]. unfold registry_of in Hi; simpl in Hi.
  assert (Hhd : c ∈ members reg1 r →
    c ∈ members reg r ∨
    r ∈ match setup_key c i with Some y => y :: omap (setup_key c) l | None => omap (setup_key c) l end ∨
    r ∈ match join_key c i with Some y => y :: omap (join_key c) l | None => omap (join_key c) l end).
  { intros [Hc|[Hc|Hc]]%Hi; [auto|rewrite Hc..]; set_solver. }
  destruct res as [[]| |]; [|exact Hhd..].
  specialize (IH reg1). destruct (run l reg1) as [[reg2 out2] res2].
  unfold registry_of in *; simpl in *.
  intros [Hc|[Hc|Hc]]%IH; [auto|right..].
  - left. unfold setup_keys in Hc. destruct (setup_key c i); set_solver.
  - right. unfold join_keys in Hc. destruct (join_key c i); set_solver.
Qed.

(** C7, as amended: for a connection that starts in no room and whose
    [setup] events all carry the same user id, that id keys its only
    personal room, and every other room it is a member of is one it joined
    with a [join chat] event of its own. *)
Theorem one_personal_room_per_setup_id (c : conn) (l : list inbound)
    (uid : string) (reg : rooms) :
  (∀ r, c ∉ members reg r) →
  (∀ p, p ∈ setup_keys c l → p = PStr uid) →
  (∀ r1 r2, personal_room c l reg r1 → personal_room c l reg r2 → r1 = r2) ∧
  (∀ r, c ∈ members (registry_of (run l reg)) r → r = PStr uid ∨ r ∈ join_keys c l).
Proof.
  intros Hnew Hsame. split.
  - intros r1 r2 [H1 _] [H2 _]. by rewrite (Hsame _ H1), (Hsame _ H2).
  - intros r [Hc|[Hc|Hc]]%run_origin; [by apply Hnew in Hc | auto..].
Qed.

Lemma one_personal_room_per_setup_id_witness :
  let l := [Message 1%nat "setup" (descriptor "u1");
            Message 1%nat "join chat" (VStr "conv1");
            Message 1%nat "setup" (descriptor "u1")] in
  (∀ r1 r2, personal_room 1%nat l ∅ r1 → personal_room 1%nat l ∅ r2 → r1 = r2) ∧
  (∀ r, 1%nat ∈ members (registry_of (run l ∅)) r → r = PStr "u1" ∨ r ∈ join_keys 1%nat l).
Proof.
  apply (one_personal_room_per_setup_id 1%nat _ "u1" ∅).
  - intros r. rewrite members_empty. apply not_elem_of_empty.
  - intros p Hp. vm_compute in Hp.
    repeat (apply elem_of_cons in Hp as [Hp|Hp]; [exact Hp|]).
    by apply elem_of_nil in Hp.
Defined.

(** C7, as stated, fails: a second [setup] with another user id leaves the
    connection in two distinct personal rooms. *)
Lemma second_setup_joins_second_personal_room :
  let l := [Message 1%nat "setup" (descriptor "u1");
            Message 1%nat "setup" (descriptor "u2")] in
  result_of (run l ∅) = Done () ∧
  personal_room 1%nat l ∅ (PStr "u1") ∧
  personal_room 1%nat l ∅ (PStr "u2") ∧
  PStr "u1" ≠ PStr "u2".
Proof.
  cbv zeta. unfold personal_room.
  erewrite run_cons_done by (apply (step_setup _ _ "u1"); reflexivity).
  erewrite run_cons_done by (apply (step_setup _ _ "u2"); reflexivity).
  unfold result_of, registry_of; simpl.
  change (setup_keys 1%nat _) with [PStr "u1"; PStr "u2"].
  rewrite !elem_of_members_join. set_solver.
Qed.

(** * Further properties of the callbacks *)

(** ** Events no listener is registered for *)

(** An event whose name is none of the five registered ones reaches no
    callback: nothing is pushed or logged and the registry stays as it was,
    whatever the payload. *)
Theorem unregistered_event_ignored (socket : conn) (event : string)
    (payload : value) (reg : rooms) :
  event ≠ "setup" → event ≠ "join chat" → event ≠ "typing" →
  event ≠ "stop typing" → event ≠ "new message" →
  step (Message socket event payload) reg = (reg, [], Done ()).
Proof.
  intros. simpl. apply deliver_none. by apply listeners_for_other.
Qed.

Lemma unregistered_event_ignored_witness :
  step (Message 1%nat "Typing" (VStr "conv1")) (join (PStr "conv1") 2%nat ∅)
  = (join (PStr "conv1") 2%nat ∅, [], Done ()).
Proof.
  apply (unregistered_event_ignored 1%nat "Typing" (VStr "conv1")); discriminate.
Defined.

(** ** Setup, edge cases *)

(** A [setup] event with no payload, or with [null], throws a TypeError at
    [userData._id]: the connection joins no room and gets no [connected]. *)
Theorem setup_without_user_data_throws (socket : conn) (p : prim) (reg : rooms) :
  nullish p = true →
  step (Message socket "setup" (VPrim p)) reg =
  (reg, [Invoke socket LSetup], Raised TypeError).
Proof.
  intros Hp. simpl. rewrite (deliver_one _ _ _ LSetup) by reflexivity.
  rewrite invoke_eq. by destruct p.
Qed.

Lemma setup_without_user_data_throws_witness :
  step (Message 1%nat "setup" (VPrim PNull)) ∅ =
  (∅, [Invoke 1%nat LSetup], Raised TypeError).
Proof. apply (setup_without_user_data_throws 1%nat PNull ∅). reflexivity. Defined.

(** Sending [setup] again with the same id changes no membership, yet
    every repetition is acknowledged with its own [connected]. *)
Theorem setup_repeated_acknowledges_each_time (socket : conn)
    (fields : gmap string value) (uid : string) (n : nat) (reg : rooms) :
  fields !! "_id" = Some (VStr uid) →
  run (replicate (S n) (Message socket "setup" (VObj fields))) reg =
  (join (PStr uid) socket reg,
   mjoin (replicate (S n) [Invoke socket LSetup; Emit socket "connected" None]),
   Done ()).
Proof.
  intros Hid. revert reg. induction n as [|n IH]; intros reg.
  - simpl replicate. erewrite run_cons_done by by apply step_setup. reflexivity.
  - rewrite (replicate_S (S n)).
    erewrite run_cons_done by by apply step_setup.
    rewrite IH, join_idemp. reflexivity.
Qed.

Lemma setup_repeated_acknowledges_each_time_witness :
  run (replicate 3 (Message 1%nat "setup" (descriptor "u1"))) ∅ =
  (join (PStr "u1") 1%nat ∅,
   mjoin (replicate 3 [Invoke 1%nat LSetup; Emit 1%nat "connected" None]),
   Done ()).
Proof.
  apply (setup_repeated_acknowledges_each_time 1%nat {[ "_id" := VStr "u1" ]} "u1" 2 ∅).
  reflexivity.
Defined.

(** ** [new message], whatever the payload *)

Lemma on_new_message_emits socket msg reg c ev p :
  Emit c ev p ∈ trace_of (on_new_message socket msg reg) →
  ∃ users user, chat_users msg = Done (VArr users) ∧ user ∈ users ∧
                Emit c ev p ∈ trace_of (notify socket msg user reg).
Proof.
  unfold on_new_message, chat_users, bind, lift, console_log.
  destruct (get msg "chat") as [chat| |]; simpl; [|set_solver..].
  destruct (get chat "users") as [users| |]; simpl; [|set_solver..].
  destruct (truthy users); simpl; [|set_solver].
  destruct users as [q|users|o]; simpl; [set_solver| |set_solver].
  destruct (each _ _ _) as [[reg2 out2] res] eqn:Heach.
  unfold trace_of at 1; simpl. intros Hin.
  assert (Hin' : Emit c ev p ∈ trace_of (each (notify socket msg) users reg))
    by by rewrite Heach.
  apply each_trace in Hin' as (user & Huser & Hin'); [|apply frozen_notify].
  by exists users, user.
Qed.

(** Whatever a [new message] event carries and however its handling ends,
    it changes no room membership, and each of its pushes is a
    ['message recieved'] that carries the received payload itself and goes
    to a connection other than the sending one. *)
Theorem new_message_only_relays (socket : conn) (msg : value) (reg : rooms) :
  let r := step (Message socket "new message" msg) reg in
  registry_of r = reg ∧
  (∀ c ev p, Emit c ev p ∈ trace_of r →
     c ≠ socket ∧ ev = "message recieved" ∧ p = Some msg).
Proof.
  cbv zeta. rewrite step_new_message.
  pose proof (frozen_on_new_message socket msg reg) as Hreg.
  pose proof (on_new_message_emits socket msg reg) as Hemit.
  destruct (on_new_message socket msg reg) as [[reg' out] res].
  unfold registry_of, trace_of in *; simpl in *. split; [done|].
  intros c ev p [?|Hin]%elem_of_cons; [done|].
  apply Hemit in Hin as (users & user & _ & _ & Hin).
  apply notify_trace in Hin as (q & sender & sid & _ & _ & _ & _ & -> & -> & _ & Hne).
  done.
Qed.

(** An empty [chat.users] array is not taken for a missing one: the event
    returns normally with no console line and no push, whatever else the
    payload holds. *)
Theorem new_message_to_nobody (socket : conn) (msg : value) (reg : rooms) :
  chat_users msg = Done (VArr []) →
  step (Message socket "new message" msg) reg =
  (reg, [Invoke socket LNewMessage], Done ()).
Proof.
  intros Hu. rewrite step_new_message. unfold chat_users in Hu.
  unfold on_new_message, bind, lift.
  destruct (get msg "chat") as [chat| |]; [|done..]. simpl.
  by rewrite Hu.
Qed.

Lemma new_message_to_nobody_witness :
  step (Message 1%nat "new message" (VObj {[ "chat" := VObj {[ "users" := VArr [] ]} ]}))
    (join (PStr "u1") 2%nat ∅) =
  (join (PStr "u1") 2%nat ∅, [Invoke 1%nat LNewMessage], Done ()).
Proof.
  apply (new_message_to_nobody 1%nat
           (VObj {[ "chat" := VObj {[ "users" := VArr [] ]} ]})).
  reflexivity.
Defined.

(** ** [new message], the fan-out step by step *)

Lemma each_app {A} (f : A → action unit) (l1 l2 : list A) reg :
  each f (l1 ++ l2) reg = (each f l1;; each f l2) reg.
Proof.
  revert reg. induction l1 as [|x l1 IH]; intros reg; simpl.
  - unfold bind, ret. by destruct (each f l2 reg) as [[reg2 out2] res].
  - unfold bind in *. destruct (f x reg) as [[reg1 out1] [[]| |]]; [|done..].
    rewrite IH.
    destruct (each f l1 reg1) as [[reg2 out2] [[]| |]]; [|done..].
    destruct (each f l2 reg2) as [[reg3 out3] res]. by rewrite app_assoc.
Qed.

(** One descriptor with a string [_id], against any sender id that [==] can
    compare it with. *)
Lemma notify_by socket msg user uid sender sv (b : bool) reg :
  user_id user = Some uid →
  get msg "sender" = Done sender → get sender "_id" = Done sv →
  loose_eq (VStr uid) sv = Done b →
  notify socket msg user reg =
  (reg, if b then [] else pushes socket msg reg (PStr uid), Done ()).
Proof.
  intros Hu%user_id_get Hs Hsid Heq.
  unfold notify, bind, lift. rewrite Hu. cbn -[loose_eq].
  rewrite Hs. cbn -[loose_eq]. rewrite Hsid. cbn -[loose_eq]. rewrite Heq.
  by destruct b.
Qed.

Lemma loose_eq_string_nullish uid p :
  nullish p = true → loose_eq (VStr uid) (VPrim p) = Done false.
Proof. by destruct p. Qed.

(** A [null] (or otherwise unreadable) descriptor aborts the fan-out where
    it stands: the recipients listed before it have been pushed to, the
    callback throws a TypeError, and the recipients listed after it are
    never reached. *)
Theorem new_message_aborts_at_unreadable_descriptor (socket : conn)
    (msg chat sender bad : value) (before after : list value)
    (uids : list string) (sid : string) (reg : rooms) :
  get msg "chat" = Done chat →
  get chat "users" = Done (VArr (before ++ bad :: after)) →
  get msg "sender" = Done sender → user_id sender = Some sid →
  mapM user_id before = Some uids →
  get bad "_id" = Raised TypeError →
  step (Message socket "new message" msg) reg =
  (reg,
   Invoke socket LNewMessage ::
     (uids ≫= (λ uid, if String.eqb uid sid then [] else pushes socket msg reg (PStr uid))),
   Raised TypeError).
Proof.
  intros Hchat Husers Hsender Hsid Hbefore%mapM_Some Hbad.
  rewrite step_new_message. unfold on_new_message, bind, lift.
  rewrite Hchat. simpl. rewrite Husers. simpl.
  rewrite each_app. unfold bind.
  rewrite (each_notify _ _ _ _ _ _ _ Hbefore Hsender Hsid). simpl.
  unfold bind, notify, bind, lift. rewrite Hbad. simpl.
  by rewrite app_nil_r.
Qed.

Lemma new_message_aborts_at_unreadable_descriptor_witness :
  let msg := message [descriptor "u2"; VPrim PNull; descriptor "u3"] (descriptor "u1") in
  let reg := join (PStr "u3") 3%nat (join (PStr "u2") 2%nat ∅) in
  step (Message 1%nat "new message" msg) reg =
  (reg,
   Invoke 1%nat LNewMessage ::
     (["u2"] ≫= (λ uid, if String.eqb uid "u1" then [] else pushes 1%nat msg reg (PStr uid))),
   Raised TypeError).
Proof.
  refine (new_message_aborts_at_unreadable_descriptor 1%nat
    (message [descriptor "u2"; VPrim PNull; descriptor "u3"] (descriptor "u1"))
    (VObj {[ "users" := VArr [descriptor "u2"; VPrim PNull; descriptor "u3"] ]})
    (descriptor "u1") (VPrim PNull) [descriptor "u2"] [descriptor "u3"]
    ["u2"] "u1" _ _ _ _ _ _ _); reflexivity.
Defined.

(** A payload whose [sender] is missing (or [null]) is only noticed at the
    first descriptor: with at least one readable descriptor the callback
    throws a TypeError before any push. *)
Theorem new_message_without_sender_throws (socket : conn)
    (msg chat first id : value) (others : list value) (p : prim) (reg : rooms) :
  get msg "chat" = Done chat → get chat "users" = Done (VArr (first :: others)) →
  get first "_id" = Done id →
  get msg "sender" = Done (VPrim p) → nullish p = true →
  step (Message socket "new message" msg) reg =
  (reg, [Invoke socket LNewMessage], Raised TypeError).
Proof.
  intros Hchat Husers Hfirst Hsender Hp.
  rewrite step_new_message. unfold on_new_message, bind, lift.
  rewrite Hchat. simpl. rewrite Husers. simpl.
  unfold bind, notify, bind, lift. rewrite Hfirst. simpl. rewrite Hsender. simpl.
  by destruct p.
Qed.

Lemma new_message_without_sender_throws_witness :
  step (Message 1%nat "new message"
          (VObj {[ "chat" := VObj {[ "users" := VArr [descriptor "u2"] ]} ]}))
       (join (PStr "u2") 2%nat ∅) =
  (join (PStr "u2") 2%nat ∅, [Invoke 1%nat LNewMessage], Raised TypeError).
Proof.
  refine (new_message_without_sender_throws 1%nat
    (VObj {[ "chat" := VObj {[ "users" := VArr [descriptor "u2"] ]} ]})
    (VObj {[ "users" := VArr [descriptor "u2"] ]})
    (descriptor "u2") (VStr "u2") [] PUndefined _ _ _ _ _ _); reflexivity.
Defined.

Lemma each_notify_by socket msg users uids sender sv (skip : string → bool) reg :
  Forall2 (λ u uid, user_id u = Some uid) users uids →
  get msg "sender" = Done sender → get sender "_id" = Done sv →
  (∀ uid, loose_eq (VStr uid) sv = Done (skip uid)) →
  each (notify socket msg) users reg =
  (reg,
   uids ≫= (λ uid, if skip uid then [] else pushes socket msg reg (PStr uid)),
   Done ()).
Proof.
  intros Hall Hs Hsid Heq. induction Hall as [|u uid users uids Hu _ IH]; [done|].
  simpl. unfold bind at 1.
  rewrite (notify_by _ _ _ _ _ _ _ _ Hu Hs Hsid (Heq uid)). by rewrite IH.
Qed.

(** When the sender of the payload carries no [_id] (or a [null] one), no
    recipient with a string id is held back: every listed recipient's room
    is pushed to, the author's own included. *)
Theorem new_message_from_unidentified_sender (socket : conn)
    (msg chat sender : value) (users : list value) (uids : list string)
    (p : prim) (reg : rooms) :
  get msg "chat" = Done chat → get chat "users" = Done (VArr users) →
  mapM user_id users = Some uids →
  get msg "sender" = Done sender → get sender "_id" = Done (VPrim p) →
  nullish p = true →
  step (Message socket "new message" msg) reg =
  (reg,
   Invoke socket LNewMessage :: (uids ≫= (λ uid, pushes socket msg reg (PStr uid))),
   Done ()).
Proof.
  intros Hchat Husers Hall%mapM_Some Hsender Hsid Hp.
  rewrite step_new_message. unfold on_new_message, bind, lift.
  rewrite Hchat. simpl. rewrite Husers. simpl.
  by rewrite (each_notify_by _ _ _ _ _ _ (λ _, false) _ Hall Hsender Hsid
                (λ uid, loose_eq_string_nullish uid p Hp)).
Qed.

Lemma new_message_from_unidentified_sender_witness :
  let msg := message [descriptor "u1"; descriptor "u2"] (VObj {[ "name" := VStr "u1" ]}) in
  let reg := join (PStr "u1") 3%nat ∅ in
  step (Message 1%nat "new message" msg) reg =
  (reg,
   Invoke 1%nat LNewMessage :: (["u1"; "u2"] ≫= (λ uid, pushes 1%nat msg reg (PStr uid))),
   Done ()).
Proof.
  refine (new_message_from_unidentified_sender 1%nat
    (message [descriptor "u1"; descriptor "u2"] (VObj {[ "name" := VStr "u1" ]}))
    (VObj {[ "users" := VArr [descriptor "u1"; descriptor "u2"] ]})
    (VObj {[ "name" := VStr "u1" ]}) [descriptor "u1"; descriptor "u2"]
    ["u1"; "u2"] PUndefined _ _ _ _ _ _ _); reflexivity.
Defined.

(** When neither the sender nor the descriptors carry an [_id] (a payload
    that names the field otherwise, say), [undefined == undefined] holds for
    every descriptor: all are skipped and nobody is pushed to. *)
Theorem new_message_without_ids_reaches_nobody (socket : conn)
    (msg chat sender : value) (users : list value) (q : prim) (reg : rooms) :
  get msg "chat" = Done chat → get chat "users" = Done (VArr users) →
  get msg "sender" = Done sender → get sender "_id" = Done (VPrim q) →
  nullish q = true →
  Forall (λ user, ∃ p, get user "_id" = Done (VPrim p) ∧ nullish p = true) users →
  step (Message socket "new message" msg) reg =
  (reg, [Invoke socket LNewMessage], Done ()).
Proof.
  intros Hchat Husers Hsender Hsid Hq Hall.
  rewrite step_new_message. unfold on_new_message, bind, lift.
  rewrite Hchat. simpl. rewrite Husers. simpl.
  assert (Heach : each (notify socket msg) users reg = (reg, [], Done ())).
  { clear Husers. induction Hall as [|user users (p & Hu & Hp) _ IH]; [done|].
    simpl. unfold bind at 1.
    assert (Hone : notify socket msg user reg = (reg, [], Done ())).
    { unfold notify, bind, lift. rewrite Hu. cbn -[loose_eq].
      rewrite Hsender. cbn -[loose_eq]. rewrite Hsid. cbn -[loose_eq].
      by destruct p, q. }
    by rewrite Hone, IH. }
  by rewrite Heach.
Qed.

Lemma new_message_without_ids_reaches_nobody_witness :
  let user (uid : string) : value := VObj {[ "userId" := VStr uid ]} in
  let msg := message [user "u1"; user "u2"] (user "u1") in
  let reg := join (PStr "u2") 2%nat (join (PStr "u1") 1%nat ∅) in
  step (Message 1%nat "new message" msg) reg =
  (reg, [Invoke 1%nat LNewMessage], Done ()).
Proof.
  cbv zeta.
  refine (new_message_without_ids_reaches_nobody 1%nat
    (message [VObj {[ "userId" := VStr "u1" ]}; VObj {[ "userId" := VStr "u2" ]}]
       (VObj {[ "userId" := VStr "u1" ]}))
    (VObj {[ "users" := VArr [VObj {[ "userId" := VStr "u1" ]};
                              VObj {[ "userId" := VStr "u2" ]}] ]})
    (VObj {[ "userId" := VStr "u1" ]})
    [VObj {[ "userId" := VStr "u1" ]}; VObj {[ "userId" := VStr "u2" ]}]
    PUndefined _ _ _ _ _ _ _); try reflexivity.
  repeat constructor; exists PUndefined; split; reflexivity.
Defined.

(** ** How often a connection is pushed to *)

Lemma recipients_of_broadcast (event : string) (payload : option value) (l : list conn) :
  recipients_of event ((λ c, Emit c event payload) <$> l) = l.
Proof.
  induction l as [|c l IH]; [done|].
  rewrite fmap_cons. unfold recipients_of in *. csimpl.
  rewrite decide_True by done. by rewrite IH.
Qed.

Lemma recipients_of_pushes socket msg reg r :
  recipients_of "message recieved" (pushes socket msg reg r)
  = elements (members reg r ∖ {[socket]}).
Proof. apply recipients_of_broadcast. Qed.

Lemma recipients_of_app event (t1 t2 : list output) :
  recipients_of event (t1 ++ t2) = recipients_of event t1 ++ recipients_of event t2.
Proof. apply omap_app. Qed.

Lemma recipients_of_invoke event socket l (t : list output) :
  recipients_of event (Invoke socket l :: t) = recipients_of event t.
Proof. reflexivity. Qed.

Lemma occurrences_in_elements (s : gset conn) (c : conn) :
  length (filter (λ c', c' = c) (elements s)) = if decide (c ∈ s) then 1%nat else 0%nat.
Proof.
  destruct (decide (c ∈ s)) as [Hc|Hc].
  - apply occurs_once; [apply NoDup_elements | by apply elem_of_elements].
  - rewrite filter_absent; [done|]. by rewrite elem_of_elements.
Qed.

(** There is no deduplication: for a well-formed payload a connection other
    than the sending one receives one ['message recieved'] for every entry
    of [chat.users], repetitions counted, whose id differs from the
    sender's and whose room it is a member of. *)
Theorem new_message_pushes_once_per_listing (socket c : conn) (msg : value)
    (uids : list string) (sid : string) (reg : rooms) :
  well_formed msg = Some (uids, sid) → c ≠ socket →
  length (filter (λ c', c' = c)
            (recipients_of "message recieved"
               (trace_of (step (Message socket "new message" msg) reg))))
  = length (filter (λ uid, uid ≠ sid ∧ c ∈ members reg (PStr uid)) uids).
Proof.
  intros Hwf Hc. rewrite (step_new_message_well_formed _ _ _ _ _ Hwf).
  change (trace_of (_, ?t, _)) with t. rewrite recipients_of_invoke.
  clear Hwf. induction uids as [|uid uids IH]; [done|].
  rewrite bind_cons, recipients_of_app, filter_app, length_app, IH.
  destruct (String.eqb uid sid) eqn:Heq.
  - apply String.eqb_eq in Heq as ->.
    rewrite filter_cons_False by naive_solver. done.
  - apply String.eqb_neq in Heq.
    rewrite recipients_of_pushes, occurrences_in_elements.
    destruct (decide (c ∈ members reg (PStr uid) ∖ {[socket]})) as [Hin|Hin].
    + rewrite filter_cons_True by set_solver. done.
    + rewrite filter_cons_False by set_solver. done.
Qed.

Lemma new_message_pushes_once_per_listing_witness :
  let msg := message [descriptor "u2"; descriptor "u1"; descriptor "u2"] (descriptor "u1") in
  let reg := join (PStr "u2") 2%nat (join (PStr "u1") 1%nat ∅) in
  length (filter (λ c', c' = 2%nat)
            (recipients_of "message recieved"
               (trace_of (step (Message 1%nat "new message" msg) reg))))
  = length (filter (λ uid, uid ≠ "u1" ∧ 2%nat ∈ members reg (PStr uid))
              ["u2"; "u1"; "u2"]).
Proof.
  apply (new_message_pushes_once_per_listing 1%nat 2%nat
    (message [descriptor "u2"; descriptor "u1"; descriptor "u2"] (descriptor "u1"))
    ["u2"; "u1"; "u2"] "u1").
  - reflexivity.
  - lia.
Defined.

(** ** Rooms share one namespace *)

(** Nothing ties a room to the user it is named after: once a connection
    has sent [join chat] with a user's id, every message addressed to that
    user by another connection is pushed to it as well. *)
Theorem join_chat_subscribes_to_personal_room (c socket : conn) (msg : value)
    (uids : list string) (sid uid : string) (reg : rooms) :
  c ≠ socket → well_formed msg = Some (uids, sid) → uid ∈ uids → uid ≠ sid →
  let r := run [Message c "join chat" (VStr uid);
                Message socket "new message" msg] reg in
  result_of r = Done () ∧
  Emit c "message recieved" (Some msg) ∈ trace_of r.
Proof.
  intros Hc Hwf Huid Hne. cbv zeta.
  erewrite run_cons_done by apply step_join_chat.
  erewrite run_cons_done by by apply step_new_message_well_formed.
  unfold result_of, trace_of; simpl. split; [done|].
  do 3 right. rewrite app_nil_r. apply list_elem_of_bind. exists uid. split; [|done].
  apply String.eqb_neq in Hne. rewrite Hne.
  apply emit_in_broadcast. split_and!; try done.
  apply elem_of_difference. split; [|by apply not_elem_of_singleton].
  apply elem_of_members_join. by left.
Qed.

Lemma join_chat_subscribes_to_personal_room_witness :
  let msg := message [descriptor "u1"; descriptor "u2"] (descriptor "u1") in
  let r := run [Message 9%nat "join chat" (VStr "u2");
                Message 1%nat "new message" msg] ∅ in
  result_of r = Done () ∧
  Emit 9%nat "message recieved" (Some msg) ∈ trace_of r.
Proof.
  apply (join_chat_subscribes_to_personal_room 9%nat 1%nat
    (message [descriptor "u1"; descriptor "u2"] (descriptor "u1"))
    ["u1"; "u2"] "u1" "u2" ∅).
  - lia.
  - reflexivity.
  - apply elem_of_cons. right. apply elem_of_cons. by left.
  - discriminate.
Defined.

(** A connection that joined a room is reached by the typing indicators
    any other connection sends for it; the sending connection need not be a
    member of the room itself. *)
Theorem join_chat_then_typing_reaches_member (c socket : conn) (R : string)
    (reg : rooms) :
  c ≠ socket →
  Emit c "typing" None
    ∈ trace_of (run [Message c "join chat" (VStr R);
                     Message socket "typing" (VStr R)] reg) ∧
  Emit c "stop typing" None
    ∈ trace_of (run [Message c "join chat" (VStr R);
                     Message socket "stop typing" (VStr R)] reg).
Proof.
  intros Hc.
  assert (Hin : c ∈ members (join (PStr R) c reg) (PStr R) ∖ {[socket]}).
  { apply elem_of_difference. split; [|by apply not_elem_of_singleton].
    apply elem_of_members_join. by left. }
  split.
  - erewrite run_cons_done by apply step_join_chat.
    erewrite run_cons_done by apply step_typing.
    unfold trace_of; simpl. do 3 right. rewrite app_nil_r.
    by apply emit_in_broadcast.
  - erewrite run_cons_done by apply step_join_chat.
    erewrite run_cons_done by apply step_stop_typing.
    unfold trace_of; simpl. do 3 right. rewrite app_nil_r.
    by apply emit_in_broadcast.
Qed.

Lemma join_chat_then_typing_reaches_member_witness :
  Emit 2%nat "typing" None
    ∈ trace_of (run [Message 2%nat "join chat" (VStr "conv1");
                     Message 1%nat "typing" (VStr "conv1")] ∅) ∧
  Emit 2%nat "stop typing" None
    ∈ trace_of (run [Message 2%nat "join chat" (VStr "conv1");
                     Message 1%nat "stop typing" (VStr "conv1")] ∅).
Proof. apply (join_chat_then_typing_reaches_member 2%nat 1%nat "conv1" ∅). lia. Defined.

(** ** Memberships belong to the connection that asked for them *)

Lemma keys_of_other c i :
  sent_by i ≠ c → setup_key c i = None ∧ join_key c i = None.
Proof.
  intros Hi. destruct i as [socket event payload|socket reason]; simpl in *; [|done].
  by rewrite !decide_False by naive_solver.
Qed.

Lemma setup_keys_of_others c l :
  (∀ i, i ∈ l → sent_by i ≠ c) → setup_keys c l = [] ∧ join_keys c l = [].
Proof.
  induction l as [|i l IH]; intros Hl; [done|].
  destruct IH as [IH1 IH2]; [intros j Hj; apply Hl; by right|].
  destruct (keys_of_other c i) as [H1 H2]; [apply Hl; by left|].
  unfold setup_keys, join_keys in *. simpl omap. by rewrite H1, H2.
Qed.

(** The events and closes of other connections never change the rooms a
    connection is in: whatever they send, it is a member of exactly the
    rooms it was a member of before. *)
Theorem memberships_untouched_by_others (c : conn) (l : list inbound)
    (reg : rooms) (r : prim) :
  (∀ i, i ∈ l → sent_by i ≠ c) →
  c ∈ members (registry_of (run l reg)) r ↔ c ∈ members reg r.
Proof.
  intros Hl. split.
  - intros [Hc|[Hc|Hc]]%run_origin; [done|..];
      destruct (setup_keys_of_others c l Hl) as [H1 H2];
      rewrite ?H1, ?H2 in Hc; by apply elem_of_nil in Hc.
  - assert (Hrun : keeps (λ l, l ≠ LTeardown) (run l)).
    { apply keeps_each. intros i _. apply keeps_step. }
    apply (Hrun reg).
Qed.

Lemma memberships_untouched_by_others_witness :
  let l := [Message 2%nat "setup" (descriptor "u1");
            Message 2%nat "join chat" (VStr "conv1");
            Close 3%nat "transport close"] in
  1%nat ∈ members (registry_of (run l (join (PStr "u1") 1%nat ∅))) (PStr "conv1")
  ↔ 1%nat ∈ members (join (PStr "u1") 1%nat ∅) (PStr "conv1").
Proof.
  apply (memberships_untouched_by_others 1%nat).
  intros i Hi.
  repeat (apply elem_of_cons in Hi as [->|Hi]; [simpl; lia|]).
  by apply elem_of_nil in Hi.
Defined.

(** * The conversation listing controller *)

(** ** Trimming *)

Lemma trim_start_blank (ws s : Conversations.text) :
  Conversations.blank ws →
  Conversations.trim_start (ws ++ s) = Conversations.trim_start s.
Proof. induction 1 as [|u ws Hu _ IH]; [done|]. simpl. by rewrite Hu. Qed.

Lemma trim_start_split (s : Conversations.text) :
  ∃ ws, Conversations.blank ws ∧ s = ws ++ Conversations.trim_start s.
Proof.
  induction s as [|u s (ws & Hws & Hs)]; [exists []; split; [constructor|done]|].
  simpl. destruct (Conversations.is_space u) eqn:Hu.
  - exists (u :: ws). split; [by constructor|]. simpl. by f_equal.
  - exists []. split; [constructor|done].
Qed.

Lemma trim_start_head (s : Conversations.text) u :
  head (Conversations.trim_start s) = Some u → Conversations.is_space u = false.
Proof.
  induction s as [|v s IH]; [done|]. simpl.
  destruct (Conversations.is_space v) eqn:Hv; [done|]. by intros [= <-].
Qed.

Lemma trim_start_keeps (s : Conversations.text) u :
  head s = Some u → Conversations.is_space u = false →
  Conversations.trim_start s = s.
Proof. destruct s as [|v s]; [done|]. simpl. by intros [= ->] ->. Qed.

Lemma trim_start_nil_blank (s : Conversations.text) :
  Conversations.trim_start s = [] ↔ Conversations.blank s.
Proof.
  split.
  - intros Hs. destruct (trim_start_split s) as (ws & Hws & Heq).
    rewrite Hs, app_nil_r in Heq. by subst.
  - intros Hs. rewrite <- (app_nil_r s). by rewrite trim_start_blank.
Qed.

Lemma blank_reverse (s : Conversations.text) :
  Conversations.blank (reverse s) ↔ Conversations.blank s.
Proof. unfold Conversations.blank. by rewrite Forall_reverse. Qed.

Lemma blank_app (s1 s2 : Conversations.text) :
  Conversations.blank (s1 ++ s2) ↔ Conversations.blank s1 ∧ Conversations.blank s2.
Proof. apply Forall_app. Qed.

Lemma trim_end_blank (s ws : Conversations.text) :
  Conversations.blank ws →
  Conversations.trim_end (s ++ ws) = Conversations.trim_end s.
Proof.
  intros Hws. unfold Conversations.trim_end.
  rewrite reverse_app, trim_start_blank; [done|]. by apply blank_reverse.
Qed.

Lemma trim_end_split (s : Conversations.text) :
  ∃ ws, Conversations.blank ws ∧ s = Conversations.trim_end s ++ ws.
Proof.
  destruct (trim_start_split (reverse s)) as (ws & Hws & Hs).
  exists (reverse ws). split; [by apply blank_reverse|].
  unfold Conversations.trim_end. rewrite <- reverse_app, <- Hs.
  by rewrite reverse_involutive.
Qed.

Lemma trim_nil_blank (s : Conversations.text) :
  Conversations.trim s = [] ↔ Conversations.blank s.
Proof.
  unfold Conversations.trim.
  destruct (trim_start_split s) as (ws1 & Hws1 & Hs1).
  destruct (trim_end_split (Conversations.trim_start s)) as (ws2 & Hws2 & Hs2).
  split.
  - intros Hnil. rewrite Hnil in Hs2. simpl in Hs2.
    rewrite Hs1, Hs2. by apply blank_app.
  - intros Hs. apply trim_start_nil_blank in Hs. by rewrite Hs.
Qed.

(** Trimming leaves a string that neither starts nor ends with white space
    and differs from the original by white space at both ends only. *)
Lemma trim_spec (s : Conversations.text) :
  ∃ ws1 ws2,
    Conversations.blank ws1 ∧ Conversations.blank ws2 ∧
    s = ws1 ++ Conversations.trim s ++ ws2 ∧
    (∀ u, head (Conversations.trim s) = Some u → Conversations.is_space u = false) ∧
    (∀ u, last (Conversations.trim s) = Some u → Conversations.is_space u = false).
Proof.
  unfold Conversations.trim.
  destruct (trim_start_split s) as (ws1 & Hws1 & Hs1).
  destruct (trim_end_split (Conversations.trim_start s)) as (ws2 & Hws2 & Hs2).
  exists ws1, ws2. split_and!; try done.
  - by rewrite <- Hs2.
  - intros u Hu. apply (trim_start_head s).
    rewrite Hs2. destruct (Conversations.trim_end _); [done|]. exact Hu.
  - intros u Hu. unfold Conversations.trim_end in Hu.
    rewrite last_reverse in Hu. by apply trim_start_head in Hu.
Qed.

Lemma trim_surrounded (ws1 s ws2 : Conversations.text) :
  Conversations.blank ws1 → Conversations.blank ws2 →
  Conversations.trim (ws1 ++ s ++ ws2) = Conversations.trim s.
Proof.
  intros H1 H2. unfold Conversations.trim. rewrite trim_start_blank by done.
  destruct (trim_start_split s) as (ws & Hws & Hs).
  destruct (Conversations.trim_start s) as [|u t] eqn:Ht.
  - assert (Hb : Conversations.blank (s ++ ws2)).
    { apply blank_app. split; [|done]. by apply trim_start_nil_blank. }
    apply trim_start_nil_blank in Hb. by rewrite Hb.
  - assert (Hu : Conversations.is_space u = false).
    { apply (trim_start_head s). by rewrite Ht. }
    rewrite Hs at 1. rewrite <- app_assoc, trim_start_blank by done.
    rewrite (trim_start_keeps ((u :: t) ++ ws2) u) by done.
    by apply trim_end_blank.
Qed.

(** ** The query the controller hands on *)

Lemma get_call_query (query : gmap string Conversations.param) call :
  Conversations.get query = Done call →
  Conversations.call_query call =
    (let query1 := if Conversations.present (query !! "order") then query
                   else <["order" := Conversations.Text (Conversations.units "ASC")]> query in
     if Conversations.present (query !! "orderBy") then query1
     else <["orderBy" := Conversations.Text (Conversations.units "id")]> query1).
Proof.
  unfold Conversations.get.
  destruct (Conversations.trim_keyword _) as [keyword| |]; [|done..].
  destruct (Conversations.present (Conversations.Text <$> keyword));
    by intros [= <-].
Qed.

(** Whenever the controller reaches the paginate call, the query it hands on
    has a truthy [order] and [orderBy]: a missing or empty one is replaced
    by 'ASC' and 'id', any other value is passed on as it came, and no other
    parameter is changed. *)
Theorem get_completes_ordering (query : gmap string Conversations.param)
    (call : Conversations.paginate_call) :
  Conversations.get query = Done call →
  let query' := Conversations.call_query call in
  Conversations.present (query' !! "order") = true ∧
  Conversations.present (query' !! "orderBy") = true ∧
  query' !! "order" =
    (if Conversations.present (query !! "order") then query !! "order"
     else Some (Conversations.Text (Conversations.units "ASC"))) ∧
  query' !! "orderBy" =
    (if Conversations.present (query !! "orderBy") then query !! "orderBy"
     else Some (Conversations.Text (Conversations.units "id"))) ∧
  (∀ k, k ≠ "order" → k ≠ "orderBy" → query' !! k = query !! k).
Proof.
  intros Hcall%get_call_query. cbv zeta in *. rewrite Hcall.
  destruct (Conversations.present (query !! "order")) eqn:Ho,
           (Conversations.present (query !! "orderBy")) eqn:Hb;
    split_and!; intros; simplify_map_eq; done.
Qed.

Lemma get_completes_ordering_witness :
  let query : gmap string Conversations.param :=
    {[ "order" := Conversations.Text [] ]} in
  ∃ call, Conversations.get query = Done call ∧
    Conversations.call_query call !! "order"
      = Some (Conversations.Text (Conversations.units "ASC")) ∧
    Conversations.call_query call !! "orderBy"
      = Some (Conversations.Text (Conversations.units "id")).
Proof.
  cbv zeta. eexists. split; [reflexivity|].
  edestruct (get_completes_ordering {[ "order" := Conversations.Text [] ]})
    as (_ & _ & Ho & Hb & _); [reflexivity|].
  split; [exact Ho | exact Hb].
Defined.

(** The completed query is a fixed point: handing the request on to the
    controller again would make the very same paginate call. *)
Theorem get_stable (query : gmap string Conversations.param)
    (call : Conversations.paginate_call) :
  Conversations.get query = Done call →
  Conversations.get (Conversations.call_query call) = Done call.
Proof.
  intros Hcall. pose proof (get_call_query _ _ Hcall) as Hq. cbv zeta in Hq.
  assert (Hk : Conversations.call_query call !! "keyword" = query !! "keyword").
  { rewrite Hq. repeat case_match; by simplify_map_eq. }
  assert (Ho : Conversations.present (Conversations.call_query call !! "order") = true).
  { rewrite Hq. destruct (Conversations.present (query !! "order")) eqn:Ho;
      repeat case_match; by simplify_map_eq. }
  assert (Hb : Conversations.present (Conversations.call_query call !! "orderBy") = true).
  { rewrite Hq. destruct (Conversations.present (query !! "orderBy")) eqn:Hb;
      repeat case_match; by simplify_map_eq. }
  revert Hcall. unfold Conversations.get. rewrite Hk, Ho, Hb.
  destruct (Conversations.trim_keyword _) as [keyword| |]; [|done..].
  destruct (Conversations.present (Conversations.Text <$> keyword));
    by intros [= <-].
Qed.

Lemma get_stable_witness :
  let query : gmap string Conversations.param :=
    {[ "keyword" := Conversations.Text (Conversations.units " bob ") ]} in
  ∃ call, Conversations.get query = Done call ∧
          Conversations.get (Conversations.call_query call) = Done call.
Proof.
  cbv zeta. eexists. split; [reflexivity|].
  apply (get_stable {[ "keyword" := Conversations.Text (Conversations.units " bob ") ]}).
  reflexivity.
Defined.

(** ** The keyword filters *)

(** With no [keyword], or one of white space only, neither include is
    filtered. *)
Theorem get_blank_keyword_unfiltered (query : gmap string Conversations.param) :
  query !! "keyword" = None ∨
  (∃ s, query !! "keyword" = Some (Conversations.Text s) ∧ Conversations.blank s) →
  ∃ call, Conversations.get query = Done call ∧
    Conversations.call_include call =
      Conversations.includes Conversations.Unfiltered Conversations.Unfiltered.
Proof.
  unfold Conversations.get. intros [->|(s & -> & Hs)]; simpl.
  - eexists. split; reflexivity.
  - apply trim_nil_blank in Hs. rewrite Hs. simpl. eexists. split; reflexivity.
Qed.

Lemma get_blank_keyword_unfiltered_witness :
  ∃ call,
    Conversations.get {[ "keyword" := Conversations.Text (Conversations.units "  ") ]}
      = Done call ∧
    Conversations.call_include call =
      Conversations.includes Conversations.Unfiltered Conversations.Unfiltered.
Proof.
  apply (get_blank_keyword_unfiltered
           {[ "keyword" := Conversations.Text (Conversations.units "  ") ]}).
  right. exists (Conversations.units "  "). split; [reflexivity|].
  repeat constructor.
Defined.

(** A [keyword] with anything but white space in it filters both includes
    with one and the same pattern: the keyword between two [%], stripped of
    the white space around it and otherwise verbatim ([%] and [_] in it are
    not escaped).  The users are matched on [full_name], the messages on
    [content]. *)
Theorem get_keyword_filters_both (query : gmap string Conversations.param)
    (s : Conversations.text) :
  query !! "keyword" = Some (Conversations.Text s) → ¬ Conversations.blank s →
  ∃ call k ws1 ws2,
    Conversations.get query = Done call ∧
    Conversations.call_include call =
      Conversations.includes
        (Conversations.Like "full_name" (Conversations.units "%" ++ k ++ Conversations.units "%"))
        (Conversations.Like "content" (Conversations.units "%" ++ k ++ Conversations.units "%")) ∧
    s = ws1 ++ k ++ ws2 ∧ Conversations.blank ws1 ∧ Conversations.blank ws2 ∧
    k ≠ [] ∧
    (∀ u, head k = Some u → Conversations.is_space u = false) ∧
    (∀ u, last k = Some u → Conversations.is_space u = false).
Proof.
  intros Hk Hs.
  destruct (trim_spec s) as (ws1 & ws2 & H1 & H2 & Heq & Hhd & Hlast).
  assert (Hne : Conversations.trim s ≠ []) by by rewrite trim_nil_blank.
  unfold Conversations.get. rewrite Hk. simpl.
  destruct (Conversations.trim s) as [|u k] eqn:Ht; [done|]. simpl.
  eexists _, (u :: k), ws1, ws2. split_and!; try done.
Qed.

Lemma get_keyword_filters_both_witness :
  ∃ call k ws1 ws2,
    Conversations.get {[ "keyword" := Conversations.Text (Conversations.units " 50% off ") ]}
      = Done call ∧
    Conversations.call_include call =
      Conversations.includes
        (Conversations.Like "full_name" (Conversations.units "%" ++ k ++ Conversations.units "%"))
        (Conversations.Like "content" (Conversations.units "%" ++ k ++ Conversations.units "%")) ∧
    Conversations.units " 50% off " = ws1 ++ k ++ ws2 ∧
    Conversations.blank ws1 ∧ Conversations.blank ws2 ∧
    k ≠ [] ∧
    (∀ u, head k = Some u → Conversations.is_space u = false) ∧
    (∀ u, last k = Some u → Conversations.is_space u = false).
Proof.
  apply (get_keyword_filters_both
           {[ "keyword" := Conversations.Text (Conversations.units " 50% off ") ]}
           (Conversations.units " 50% off ")).
  - reflexivity.
  - intros Hb. apply Forall_inv_tail, Forall_inv in Hb. discriminate Hb.
Defined.

(** White space around the keyword makes no difference to the filters. *)
Theorem get_ignores_surrounding_space (query : gmap string Conversations.param)
    (s ws1 ws2 : Conversations.text) :
  Conversations.blank ws1 → Conversations.blank ws2 →
  ∃ padded plain,
    Conversations.get (<["keyword" := Conversations.Text (ws1 ++ s ++ ws2)]> query)
      = Done padded ∧
    Conversations.get (<["keyword" := Conversations.Text s]> query) = Done plain ∧
    Conversations.call_include padded = Conversations.call_include plain.
Proof.
  intros H1 H2. unfold Conversations.get. rewrite !lookup_insert_eq. simpl.
  rewrite (trim_surrounded ws1 s ws2 H1 H2).
  destruct (Conversations.trim s) as [|u k]; simpl; eexists _, _; done.
Qed.

Lemma get_ignores_surrounding_space_witness :
  ∃ padded plain,
    Conversations.get {[ "keyword" := Conversations.Text (Conversations.units "  bob ") ]}
      = Done padded ∧
    Conversations.get {[ "keyword" := Conversations.Text (Conversations.units "bob") ]}
      = Done plain ∧
    Conversations.call_include padded = Conversations.call_include plain.
Proof.
  destruct (get_ignores_surrounding_space ∅ (Conversations.units "bob")
              (Conversations.units "  ") (Conversations.units " "))
    as (padded & plain & Hp & Hq & Heq); [repeat constructor..|].
  exists padded, plain. rewrite !insert_empty in Hp, Hq. done.
Defined.

(** A [keyword] that the query parser turned into an array or a nested
    object (a repeated or bracketed parameter) makes [keyword?.trim()]
    throw a TypeError: the paginate call is never made. *)
Theorem get_compound_keyword_throws (query : gmap string Conversations.param)
    (keyword : Conversations.param) :
  query !! "keyword" = Some keyword →
  (∀ s, keyword ≠ Conversations.Text s) →
  Conversations.get query = Raised TypeError.
Proof.
  intros Hk Hs. unfold Conversations.get. rewrite Hk.
  destruct keyword as [s|items|fields]; [by destruct (Hs s)|done..].
Qed.

Lemma get_compound_keyword_throws_witness :
  Conversations.get
    {[ "keyword" := Conversations.Items [Conversations.Text (Conversations.units "a");
                                         Conversations.Text (Conversations.units "b")] ]}
  = Raised TypeError.
Proof.
  apply (get_compound_keyword_throws _
           (Conversations.Items [Conversations.Text (Conversations.units "a");
                                 Conversations.Text (Conversations.units "b")])).
  - reflexivity.
  - discriminate.
Defined.
